(** * Database-web: the connection-pool and query-execution core

    A shallow embedding of [DatabaseStorage] (server/storage.ts) together
    with the table-data route of server/routes.ts, and the properties of
    the core that the specification states about it.

    Modelling conventions.
    - JavaScript strings are Rocq strings (sequences of code units below
      256); numbers are the integers of [Z] (what [parseInt] and the
      driver's counters produce).  A JavaScript number is such an integer
      exactly, and is printed in plain decimal, only while it is a safe
      integer ([safe_integer], below 2^53 in size): properties that read
      or print numbers say so.  Floating point, dates, buffers and
      nested values are not represented.
    - A row delivered by the driver is an object whose own properties are
      listed in [Object.keys] order; a property that is missing reads as
      [undefined], which is [None] here.  The driver never stores
      [undefined] in a row, so [Value] has no such constructor.
    - [this.connectionPools] is a [gmap] from connection id to a reference
      into a heap of [Pool] objects, so that a pool that is dropped from
      the map can still be talked about.
    - Every [await] settles: a promise is fulfilled or rejected.  The time
      a statement takes is part of the remote engine's answer and moves
      the clock read by [Date.now()].
    - The local metadata store (tables [connections] and [query_history])
      is a pair of lists in the order a scan returns the rows: an insert
      and the new version of an updated row go to the end.  What the
      store refuses is thrown: an execution time, a row count or an
      updated port that does not fit its 32-bit column, a history entry
      for a connection that is not stored, the deletion of a connection
      that has history.  The texts handed to the store hold no NUL
      character, and the store's clock, which sets [created_at], is the
      clock read by [Date.now()]. *)

From Stdlib Require Import ZArith String Ascii List Sorted.
From stdpp Require Import base gmap strings list pretty.

Open Scope Z_scope.
Open Scope string_scope.
Open Scope list_scope.

(** ** JavaScript values and the string primitives the code uses *)

Module Js.

Inductive Value : Type :=
| VNull
| VNum (n : Z)
| VStr (s : string)
| VBool (b : bool).

#[global] Instance Value_eq_dec : EqDecision Value.
Proof. solve_decision. Defined.

(** The integers that a JavaScript number holds exactly and prints in
    plain decimal ([Number.isSafeInteger]). *)
Definition safe_integer (n : Z) : Prop := - 2 ^ 53 < n < 2 ^ 53.

(** What a [throw] carries: an [Error] object or anything else. *)
Inductive Thrown : Type :=
| ErrorObj (message : string)
| NonError (v : Value).

(** An object with scalar properties, in [Object.keys] order. *)
Definition Row : Type := list (string * Value).

Definition DQ : ascii := "034"%char.
Definition LF : string := String "010"%char "".

(** [String(v)] and [`${v}`]; for a number, while it is a safe integer. *)
Definition ToString (v : Value) : string :=
  match v with
  | VNull => "null"
  | VNum n => pretty n
  | VStr s => s
  | VBool true => "true"
  | VBool false => "false"
  end.

(** [String(x)] for a property read, where [None] is [undefined]. *)
Definition ToString_opt (v : option Value) : string :=
  match v with
  | None => "undefined"
  | Some v => ToString v
  end.

(** [row[key]]. *)
Fixpoint get (row : Row) (key : string) : option Value :=
  match row with
  | [] => None
  | (k, v) :: rest => if String.eqb k key then Some v else get rest key
  end.

(** [Object.keys(row)]. *)
Definition keys (row : Row) : list string := map fst row.

(** [s.includes(sub)]. *)
Fixpoint includes (s sub : string) : bool :=
  String.prefix sub s ||
  match s with
  | EmptyString => false
  | String _ rest => includes rest sub
  end.

(** [s.replace] of every double quote (the global regular expression
    of the source) by two double quotes. *)
Fixpoint replace_dquotes (s : string) : string :=
  match s with
  | EmptyString => EmptyString
  | String c rest =>
      if Ascii.eqb c DQ then String DQ (String DQ (replace_dquotes rest))
      else String c (replace_dquotes rest)
  end.

(** [xs.join(sep)] on an array of strings. *)
Definition join (sep : string) (xs : list string) : string :=
  String.concat sep xs.

(** *** [parseInt(x)] with no radix; [None] is [NaN]

    The digits are read exactly; JavaScript's result is this integer
    while it is a safe integer and the nearest double beyond. *)

Definition is_white (c : ascii) : bool :=
  let n := N_of_ascii c in
  ((9 <=? n) && (n <=? 13) || (n =? 32) || (n =? 160))%N.

Fixpoint trim_start (s : string) : string :=
  match s with
  | String c rest => if is_white c then trim_start rest else s
  | EmptyString => EmptyString
  end.

Definition digit_value (radix : N) (c : ascii) : option N :=
  let n := N_of_ascii c in
  let d := (if (48 <=? n) && (n <=? 57) then Some (n - 48)
            else if (97 <=? n) && (n <=? 122) then Some (n - 87)
            else if (65 <=? n) && (n <=? 90) then Some (n - 55)
            else None)%N in
  match d with
  | Some d => if (d <? radix)%N then Some d else None
  | None => None
  end.

(** The longest prefix of digits, read in [radix]; [acc] is [None] as
    long as no digit has been seen. *)
Fixpoint digits_prefix (radix : N) (s : string) (acc : option N) : option N :=
  match s with
  | EmptyString => acc
  | String c rest =>
      match digit_value radix c with
      | Some d => digits_prefix radix rest (Some (default 0%N acc * radix + d)%N)
      | None => acc
      end
  end.

Definition parseInt (x : option Value) : option Z :=
  let s := trim_start (ToString_opt x) in
  let '(sign, s) :=
    match s with
    | String "-" rest => (-1, rest)
    | String "+" rest => (1, rest)
    | _ => (1, s)
    end in
  let '(radix, s) :=
    match s with
    | String "0" (String "x" rest) => (16%N, rest)
    | String "0" (String "X" rest) => (16%N, rest)
    | _ => (10%N, s)
    end in
  match digits_prefix radix s None with
  | Some n => Some (sign * Z.of_N n)
  | None => None
  end.

(** [n || 0] on a number that may be [NaN], [null] or [undefined]. *)
Definition or_zero (n : option Z) : Z := default 0 n.

(** *** [JSON.stringify(rows, null, 2)] *)

Definition hex_digit (n : N) : ascii :=
  ascii_of_N (if (n <? 10)%N then 48 + n else 87 + n)%N.

Definition json_escape (c : ascii) : string :=
  let n := N_of_ascii c in
  if (n =? 8)%N then "\b"
  else if (n =? 9)%N then "\t"
  else if (n =? 10)%N then "\n"
  else if (n =? 12)%N then "\f"
  else if (n =? 13)%N then "\r"
  else if (n =? 34)%N then String "\" (String DQ "")
  else if (n =? 92)%N then "\\"
  else if (n <? 32)%N then
    "\u00" +:+ String (hex_digit (n / 16)) (String (hex_digit (n mod 16)) "")
  else String c "".

Fixpoint json_escape_all (s : string) : string :=
  match s with
  | EmptyString => EmptyString
  | String c rest => json_escape c +:+ json_escape_all rest
  end.

Definition QuoteJSONString (s : string) : string :=
  String DQ (json_escape_all s +:+ String DQ "").

Definition SerializeJSONProperty (v : Value) : string :=
  match v with
  | VNull => "null"
  | VNum n => pretty n
  | VStr s => QuoteJSONString s
  | VBool true => "true"
  | VBool false => "false"
  end.

(** [SerializeJSONObject]; [stepback] is the indentation in force
    outside the object, [gap] what one level adds (empty when no [space]
    was asked for). *)
Definition SerializeJSONObject (stepback gap : string) (row : Row) : string :=
  let indent := stepback +:+ gap in
  let colon := if String.eqb gap "" then ":" else ": " in
  let partial :=
    map (fun '(k, v) => QuoteJSONString k +:+ colon +:+ SerializeJSONProperty v) row in
  match partial with
  | [] => "{}"
  | _ =>
      if String.eqb gap "" then "{" +:+ join "," partial +:+ "}"
      else "{" +:+ LF +:+ indent +:+ join ("," +:+ LF +:+ indent) partial
               +:+ LF +:+ stepback +:+ "}"
  end.

Definition SerializeJSONArray (stepback gap : string) (rows : list Row) : string :=
  let indent := stepback +:+ gap in
  let partial := map (SerializeJSONObject indent gap) rows in
  match partial with
  | [] => "[]"
  | _ =>
      if String.eqb gap "" then "[" +:+ join "," partial +:+ "]"
      else "[" +:+ LF +:+ indent +:+ join ("," +:+ LF +:+ indent) partial
               +:+ LF +:+ stepback +:+ "]"
  end.

(** [JSON.stringify(rows, null, space)]. *)
Definition JSON_stringify (rows : list Row) (space : nat) : string :=
  SerializeJSONArray "" (String.concat "" (replicate (Nat.min space 10) " ")) rows.

End Js.

Import Js.

(** ** Records of shared/schema.ts *)

Record InsertConnection : Type := {
  ic_name : string;
  ic_host : string;
  ic_port : option Z;            (* optional, column default 5432 *)
  ic_database : string;
  ic_username : string;
  ic_password : string;
  ic_ssl : option bool;          (* optional, column default false *)
}.

(** [Partial<InsertConnection>]: every field may be left out. *)
Record PartialConnection : Type := {
  pc_name : option string;
  pc_host : option string;
  pc_port : option Z;
  pc_database : option string;
  pc_username : option string;
  pc_password : option string;
  pc_ssl : option bool;
}.

Record Connection : Type := {
  c_id : string;
  c_name : string;
  c_host : string;
  c_port : Z;
  c_database : string;
  c_username : string;
  c_password : string;
  c_ssl : option bool;
  c_createdAt : Z;
  c_updatedAt : Z;
}.

Record InsertQueryHistory : Type := {
  ih_connectionId : string;
  ih_query : string;
  ih_executionTime : Z;
  ih_rowsAffected : Z;
  ih_success : bool;
  ih_error : option string;      (* [None] is [null] *)
}.

Record QueryHistory : Type := {
  h_id : string;
  h_connectionId : string;
  h_query : string;
  h_executionTime : Z;
  h_rowsAffected : Z;
  h_success : bool;
  h_error : option string;
  h_createdAt : Z;
}.

Record DatabaseTable : Type := {
  t_name : option Value;
  t_schema : option Value;
  t_rowCount : Z;
}.

Record TableColumn : Type := {
  col_name : option Value;
  col_type : option Value;
  col_nullable : option Value;
  col_defaultValue : option Value;
  col_isPrimaryKey : option Value;
  col_isUnique : option Value;
  col_extra : Value;
}.

Record QueryResult : Type := {
  rows : list Row;
  rowCount : Z;
  executionTime : Z;
  columns : list string;
}.

(** ** The driver: pools and what the remote engine answers *)

(** The options object handed to [new Pool]. *)
Record PoolConfig : Type := {
  host : string;
  port : option Z;
  database : string;
  user : string;
  password : string;
  ssl : option bool;
}.

(** A [Pool] object on the heap; [ended] is set by [pool.end()]. *)
Record Pool : Type := {
  config : PoolConfig;
  ended : bool;
}.

(** What [pool.query] resolves to. *)
Record PgResult : Type := {
  pg_rows : list Row;
  pg_rowCount : option Z;               (* may be [null] *)
  pg_fields : option (list string);     (* names of [result.fields] *)
}.

(** A statement as it is handed to the pool: text and bound values. *)
Record Statement : Type := {
  text : string;
  values : list Value;
}.

(** A completed call: a value, or a thrown one (a fulfilled or a
    rejected promise). *)
Inductive Completion (A : Type) : Type :=
| Returned (a : A)
| Threw (e : Thrown).
Arguments Returned {A} a.
Arguments Threw {A} e.

(** The world outside the process.  [answer] gives, for a pool
    configuration, the time of submission, the statements sent so far and
    the statement submitted, the time it takes and how it completes.
    [out_of_range], [violates_reference] and [still_referenced] are
    what the local store throws when it refuses an integer that does not
    fit a 32-bit column, a history entry for a connection id that no
    stored connection has, and the deletion of a connection that history
    entries refer to. *)
Record Remote : Type := {
  construct : PoolConfig -> option Thrown;
  answer : PoolConfig -> Z -> list (nat * Statement) -> Statement ->
           Z * Completion PgResult;
  shutdown : PoolConfig -> option Thrown;
  out_of_range : Z -> Thrown;
  violates_reference : string -> Thrown;
  still_referenced : string -> Thrown;
}.

(** The values of an [integer] column of the local store. *)
Definition in_int4 (n : Z) : bool :=
  ((-2147483648 <=? n) && (n <=? 2147483647))%Z.

(** What an [integer] column refuses of a value that may be left out. *)
Definition refused_integer (value : option Z) : option Z :=
  match value with
  | Some n => if in_int4 n then None else Some n
  | None => None
  end.

(** [.orderBy(queryHistory.createdAt)]: rows by ascending [createdAt];
    rows of equal [createdAt] stay in the order of the scan, which the
    store does not promise. *)
Fixpoint insert_by_createdAt (h : QueryHistory) (sorted : list QueryHistory)
  : list QueryHistory :=
  match sorted with
  | [] => [h]
  | x :: rest =>
      if (h_createdAt h <? h_createdAt x)%Z then h :: sorted
      else x :: insert_by_createdAt h rest
  end.

Definition orderBy_createdAt (table : list QueryHistory) : list QueryHistory :=
  fold_left (fun sorted h => insert_by_createdAt h sorted) table [].

(** ** The state of the process *)

Record World : Type := {
  connectionPools : gmap string nat;      (* this.connectionPools *)
  heap : list Pool;                       (* the Pool objects ever built *)
  connections : list Connection;          (* table connections *)
  queryHistory : list QueryHistory;       (* table query_history *)
  issued : list (nat * Statement);        (* statements sent, oldest first *)
  now : Z;                                (* Date.now() *)
  uuid : nat;                             (* seed of gen_random_uuid() *)
}.

Definition set_connectionPools (f : gmap string nat -> gmap string nat) (w : World) : World :=
  {| connectionPools := f (connectionPools w); heap := heap w;
     connections := connections w; queryHistory := queryHistory w;
     issued := issued w; now := now w; uuid := uuid w |}.

Definition set_heap (f : list Pool -> list Pool) (w : World) : World :=
  {| connectionPools := connectionPools w; heap := f (heap w);
     connections := connections w; queryHistory := queryHistory w;
     issued := issued w; now := now w; uuid := uuid w |}.

Definition set_connections (f : list Connection -> list Connection) (w : World) : World :=
  {| connectionPools := connectionPools w; heap := heap w;
     connections := f (connections w); queryHistory := queryHistory w;
     issued := issued w; now := now w; uuid := uuid w |}.

Definition set_queryHistory (f : list QueryHistory -> list QueryHistory) (w : World) : World :=
  {| connectionPools := connectionPools w; heap := heap w;
     connections := connections w; queryHistory := f (queryHistory w);
     issued := issued w; now := now w; uuid := uuid w |}.

Definition submit (p : nat) (s : Statement) (elapsed : Z) (w : World) : World :=
  {| connectionPools := connectionPools w; heap := heap w;
     connections := connections w; queryHistory := queryHistory w;
     issued := issued w ++ [(p, s)]; now := now w + elapsed; uuid := uuid w |}.

Definition next_uuid (w : World) : World :=
  {| connectionPools := connectionPools w; heap := heap w;
     connections := connections w; queryHistory := queryHistory w;
     issued := issued w; now := now w; uuid := S (uuid w) |}.

(** ** Asynchronous methods: state passing with exceptions *)

Definition Task (A : Type) : Type := World -> Completion A * World.

Definition ret {A} (a : A) : Task A := fun w => (Returned a, w).

Definition throw {A} (e : Thrown) : Task A := fun w => (Threw e, w).

Definition bind {A B} (m : Task A) (k : A -> Task B) : Task B :=
  fun w =>
    match m w with
    | (Returned a, w') => k a w'
    | (Threw e, w') => (Threw e, w')
    end.

(** [try { m } catch (error) { handler error }]. *)
Definition try_catch {A} (m : Task A) (handler : Thrown -> Task A) : Task A :=
  fun w =>
    match m w with
    | (Returned a, w') => (Returned a, w')
    | (Threw e, w') => handler e w'
    end.

Definition gets {A} (f : World -> A) : Task A := fun w => (Returned (f w), w).

Definition modify (f : World -> World) : Task unit := fun w => (Returned tt, f w).

Declare Scope task_scope.
Delimit Scope task_scope with task.
Notation "'let*' x ':=' m 'in' k" := (bind m (fun x => k))
  (at level 10, x pattern, m at level 100, k at level 200, only parsing) : task_scope.
Notation "m ';;' k" := (bind m (fun _ => k))
  (at level 100, k at level 200, right associativity, only parsing) : task_scope.

(** ** The statements of the Schema Introspector, as the source has them *)

Definition sql_databases : string :=
  "SELECT datname FROM pg_database WHERE datistemplate = false".

Definition sql_tables : string := "
      SELECT 
        t.table_name as name,
        t.table_schema as schema,
        COALESCE(c.reltuples, 0)::bigint as row_count
      FROM information_schema.tables t
      LEFT JOIN pg_class c ON c.relname = t.table_name
      WHERE t.table_type = 'BASE TABLE' 
      AND t.table_schema NOT IN ('information_schema', 'pg_catalog')
      ORDER BY t.table_name
    ".

Definition sql_columns : string := "
      SELECT 
        c.column_name as name,
        c.data_type as type,
        c.is_nullable = 'YES' as nullable,
        c.column_default as default_value,
        CASE WHEN pk.column_name IS NOT NULL THEN true ELSE false END as is_primary_key,
        CASE WHEN u.column_name IS NOT NULL THEN true ELSE false END as is_unique,
        COALESCE(c.generation_expression, '') as extra
      FROM information_schema.columns c
      LEFT JOIN (
        SELECT ku.column_name
        FROM information_schema.table_constraints tc
        JOIN information_schema.key_column_usage ku ON tc.constraint_name = ku.constraint_name
        WHERE tc.table_name = $1 AND tc.constraint_type = 'PRIMARY KEY'
      ) pk ON pk.column_name = c.column_name
      LEFT JOIN (
        SELECT ku.column_name
        FROM information_schema.table_constraints tc
        JOIN information_schema.key_column_usage ku ON tc.constraint_name = ku.constraint_name
        WHERE tc.table_name = $1 AND tc.constraint_type = 'UNIQUE'
      ) u ON u.column_name = c.column_name
      WHERE c.table_name = $1
      ORDER BY c.ordinal_position
    ".

(** ** The class [DatabaseStorage] *)

Section DatabaseStorage.

Variable R : Remote.

Local Open Scope task_scope.

(** *** The driver's three entry points *)

Definition Date_now : Task Z := gets now.

(** [new Pool(cfg)]: a fresh object on the heap, not yet connected. *)
Definition new_Pool (cfg : PoolConfig) : Task nat :=
  fun w =>
    match construct R cfg with
    | Some e => (Threw e, w)
    | None =>
        (Returned (length (heap w)),
         set_heap (fun h => h ++ [{| config := cfg; ended := false |}]) w)
    end.

(** [pool.query(text, values)].  The reference is what [Map.get]
    returned, [None] being [undefined]; an ended pool refuses work, as
    node-postgres does. *)
Definition pool_query (pool : option nat) (s : Statement) : Task PgResult :=
  fun w =>
    match pool ≫= (fun p => (fun o => (p, o)) <$> heap w !! p) with
    | None =>
        (Threw (ErrorObj "Cannot read properties of undefined (reading 'query')"), w)
    | Some (p, o) =>
        if ended o then
          (Threw (ErrorObj "Cannot use a pool after calling end on the pool"), w)
        else
          let '(elapsed, c) := answer R (config o) (now w) (issued w) s in
          (c, submit p s elapsed w)
    end.

(** [pool.end()]. *)
Definition pool_end (p : nat) : Task unit :=
  fun w =>
    match heap w !! p with
    | None =>
        (Threw (ErrorObj "Cannot read properties of undefined (reading 'end')"), w)
    | Some o =>
        if ended o then
          (Threw (ErrorObj "Called end on pool more than once"), w)
        else
          let w' := set_heap (fun h => <[p := {| config := config o; ended := true |}]> h) w in
          match shutdown R (config o) with
          | Some e => (Threw e, w')
          | None => (Returned tt, w')
          end
    end.

(** *** The local store *)

Definition gen_random_uuid : Task string :=
  fun w => (Returned (pretty (uuid w)), next_uuid w).

Definition merge (p : PartialConnection) (stamp : Z) (c : Connection) : Connection :=
  {| c_id := c_id c;
     c_name := default (c_name c) (pc_name p);
     c_host := default (c_host c) (pc_host p);
     c_port := default (c_port c) (pc_port p);
     c_database := default (c_database c) (pc_database p);
     c_username := default (c_username c) (pc_username p);
     c_password := default (c_password c) (pc_password p);
     c_ssl := match pc_ssl p with Some b => Some b | None => c_ssl c end;
     c_createdAt := c_createdAt c;
     c_updatedAt := stamp |}.

Definition getConnections : Task (list Connection) := gets connections.

Definition getConnection (id : string) : Task (option Connection) :=
  let* selected := gets (fun w => filter (fun c => c_id c = id) (connections w)) in
  ret (head selected).

(** The record is the one that the route parsed with
    [insertConnectionSchema]; the columns left out take their defaults. *)
Definition createConnection (connection : InsertConnection) : Task Connection :=
  let* id := gen_random_uuid in
  let* stamp := Date_now in
  let newConnection :=
    {| c_id := id;
       c_name := ic_name connection;
       c_host := ic_host connection;
       c_port := default 5432 (ic_port connection);
       c_database := ic_database connection;
       c_username := ic_username connection;
       c_password := ic_password connection;
       c_ssl := Some (default false (ic_ssl connection));
       c_createdAt := stamp;
       c_updatedAt := stamp |} in
  modify (set_connections (fun t => t ++ [newConnection])) ;;
  ret newConnection.

(** The row returned is [undefined] when no record has the id; the new
    version of an updated row is what a later scan returns last.  A
    port that does not fit its 32-bit column is refused, whether or not
    a record has the id. *)
Definition updateConnection (id : string) (connection : PartialConnection)
  : Task (option Connection) :=
  match refused_integer (pc_port connection) with
  | Some port => throw (out_of_range R port)
  | None =>
      let* stamp := Date_now in
      let* updated :=
        gets (fun w => map (merge connection stamp)
                           (filter (fun c => c_id c = id) (connections w))) in
      modify (set_connections (fun t => filter (fun c => c_id c <> id) t ++ updated)) ;;
      ret (head updated)
  end.

(** The map entry is dropped first; the store then refuses to delete a
    record that history entries refer to. *)
Definition deleteConnection (id : string) : Task unit :=
  modify (set_connectionPools (delete id)) ;;
  let* referenced :=
    gets (fun w => bool_decide (Exists (fun c => c_id c = id) (connections w)) &&
                   bool_decide (Exists (fun h => h_connectionId h = id) (queryHistory w))) in
  if referenced then throw (still_referenced R id)
  else modify (set_connections (filter (fun c => c_id c <> id))).

(** The insert is refused when the execution time or the row count
    does not fit its 32-bit column, and when no stored connection has
    the connection id. *)
Definition saveQueryHistory (history : InsertQueryHistory) : Task QueryHistory :=
  let* referenced :=
    gets (fun w => bool_decide (Exists (fun c => c_id c = ih_connectionId history)
                                       (connections w))) in
  if negb (in_int4 (ih_executionTime history)) then
    throw (out_of_range R (ih_executionTime history))
  else if negb (in_int4 (ih_rowsAffected history)) then
    throw (out_of_range R (ih_rowsAffected history))
  else if negb referenced then
    throw (violates_reference R (ih_connectionId history))
  else
  let* id := gen_random_uuid in
  let* stamp := Date_now in
  let saved :=
    {| h_id := id;
       h_connectionId := ih_connectionId history;
       h_query := ih_query history;
       h_executionTime := ih_executionTime history;
       h_rowsAffected := ih_rowsAffected history;
       h_success := ih_success history;
       h_error := ih_error history;
       h_createdAt := stamp |} in
  modify (set_queryHistory (fun t => t ++ [saved])) ;;
  ret saved.

Definition getQueryHistory (connectionId : string) : Task (list QueryHistory) :=
  gets (fun w => orderBy_createdAt
                   (filter (fun h => h_connectionId h = connectionId) (queryHistory w))).

(** *** Pools *)

Definition pool_options_of_insert (connection : InsertConnection) : PoolConfig :=
  {| host := ic_host connection;
     port := ic_port connection;
     database := ic_database connection;
     user := ic_username connection;
     password := ic_password connection;
     ssl := ic_ssl connection |}.

Definition pool_options_of_record (connection : Connection) : PoolConfig :=
  {| host := c_host connection;
     port := Some (c_port connection);
     database := c_database connection;
     user := c_username connection;
     password := c_password connection;
     ssl := c_ssl connection |}.

Definition testConnection (connection : InsertConnection) : Task bool :=
  try_catch
    (let* pool := new_Pool (pool_options_of_insert connection) in
     pool_query (Some pool) {| text := "SELECT 1"; values := [] |} ;;
     pool_end pool ;;
     ret true)
    (fun error => ret false).

Definition getConnectionPool (connectionId : string) : Task (option nat) :=
  let* has := gets (fun w => bool_decide (is_Some (connectionPools w !! connectionId))) in
  (if negb has then
     let* connection := getConnection connectionId in
     match connection with
     | None => throw (ErrorObj "Connection not found")
     | Some connection =>
         let* pool := new_Pool (pool_options_of_record connection) in
         modify (set_connectionPools (insert connectionId pool))
     end
   else ret tt) ;;
  gets (fun w => connectionPools w !! connectionId).

(** *** Schema Introspector *)

Definition getDatabases (connectionId : string) : Task (list (option Value)) :=
  let* pool := getConnectionPool connectionId in
  let* result := pool_query pool {| text := sql_databases; values := [] |} in
  ret (map (fun row => get row "datname") (pg_rows result)).

Definition getTables (connectionId database : string) : Task (list DatabaseTable) :=
  let* pool := getConnectionPool connectionId in
  let* result := pool_query pool {| text := sql_tables; values := [] |} in
  ret (map (fun row =>
              {| t_name := get row "name";
                 t_schema := get row "schema";
                 t_rowCount := or_zero (parseInt (get row "row_count")) |})
           (pg_rows result)).

(** [x || ''] on a property read. *)
Definition or_empty (x : option Value) : Value :=
  match x with
  | None | Some VNull | Some (VBool false) | Some (VNum 0) | Some (VStr "") => VStr ""
  | Some v => v
  end.

Definition getTableColumns (connectionId database table : string)
  : Task (list TableColumn) :=
  let* pool := getConnectionPool connectionId in
  let* result := pool_query pool {| text := sql_columns; values := [VStr table] |} in
  ret (map (fun row =>
              {| col_name := get row "name";
                 col_type := get row "type";
                 col_nullable := get row "nullable";
                 col_defaultValue := get row "default_value";
                 col_isPrimaryKey := get row "is_primary_key";
                 col_isUnique := get row "is_unique";
                 col_extra := or_empty (get row "extra") |})
           (pg_rows result)).

(** *** Data Browser *)

(** [value !== undefined && value !== '']. *)
Definition filter_present (entry : string * option Value) : bool :=
  match snd entry with
  | None => false
  | Some (VStr "") => false
  | Some _ => true
  end.

(** The variables the [map] callback of [getTableData] updates. *)
Record Building : Type := {
  paramCount : Z;
  bound : list Value;            (* the array [values] *)
  conditions : list string;
}.

(** One call of the callback: count up, push the pattern, give the
    condition. *)
Definition add_condition (b : Building) (entry : string * option Value) : Building :=
  let paramCount := paramCount b + 1 in
  {| paramCount := paramCount;
     bound := bound b ++ [VStr ("%" +:+ ToString_opt (snd entry) +:+ "%")];
     conditions := conditions b ++ [fst entry +:+ "::text ILIKE $" +:+ pretty paramCount] |}.

(** The statement of [getTableData], up to [pool.query]. *)
Definition table_data_statement (table : string) (offset limit : Z)
    (filters : option (list (string * option Value))) : Statement :=
  let start := {| paramCount := 2; bound := [VNum limit; VNum offset]; conditions := [] |} in
  let built :=
    match filters with
    | Some entries =>
        if (0 <? length entries)%nat
        then fold_left add_condition (List.filter filter_present entries) start
        else start
    | None => start
    end in
  let whereClause :=
    if (0 <? length (conditions built))%nat
    then "WHERE " +:+ join " AND " (conditions built)
    else "" in
  {| text := "SELECT * FROM " +:+ table +:+ " " +:+ whereClause +:+ " LIMIT $1 OFFSET $2";
     values := bound built |}.

Definition getTableData (connectionId database table : string) (offset limit : Z)
    (filters : option (list (string * option Value))) : Task QueryResult :=
  let* pool := getConnectionPool connectionId in
  let* startTime := Date_now in
  let* result := pool_query pool (table_data_statement table offset limit filters) in
  let* finish := Date_now in
  let executionTime := finish - startTime in
  ret {| rows := pg_rows result;
         rowCount := or_zero (pg_rowCount result);
         executionTime := executionTime;
         columns := default [] (pg_fields result) |}.

(** The table-data route hands the storage every query parameter but
    [offset] and [limit]: the rest pattern of its destructuring. *)
Definition rest_filters (query : list (string * option Value))
  : list (string * option Value) :=
  List.filter (fun entry => negb (String.eqb (fst entry) "offset")
                            && negb (String.eqb (fst entry) "limit")) query.

(** *** Query Executor *)

(** [error instanceof Error ? error.message : 'Unknown error']. *)
Definition errorMessage (error : Thrown) : string :=
  match error with
  | ErrorObj message => message
  | NonError _ => "Unknown error"
  end.

Definition executeQuery (connectionId query : string) : Task QueryResult :=
  let* pool := getConnectionPool connectionId in
  let* startTime := Date_now in
  try_catch
    (let* result := pool_query pool {| text := query; values := [] |} in
     let* finish := Date_now in
     let executionTime := finish - startTime in
     saveQueryHistory
       {| ih_connectionId := connectionId;
          ih_query := query;
          ih_executionTime := executionTime;
          ih_rowsAffected := or_zero (pg_rowCount result);
          ih_success := true;
          ih_error := None |} ;;
     ret {| rows := pg_rows result;
            rowCount := or_zero (pg_rowCount result);
            executionTime := executionTime;
            columns := default [] (pg_fields result) |})
    (fun error =>
       let* finish := Date_now in
       let executionTime := finish - startTime in
       saveQueryHistory
         {| ih_connectionId := connectionId;
            ih_query := query;
            ih_executionTime := executionTime;
            ih_rowsAffected := 0;
            ih_success := false;
            ih_error := Some (errorMessage error) |} ;;
       throw error).

(** *** Exporter *)

(** One field of a data line. *)
Definition csv_value (value : option Value) : string :=
  match value with
  | None | Some VNull => ""
  | Some v =>
      let stringValue := ToString v in
      if includes stringValue "," || includes stringValue (String DQ "")
         || includes stringValue LF
      then String DQ (replace_dquotes stringValue +:+ String DQ "")
      else stringValue
  end.

Definition to_csv (rows : list Row) : string :=
  match rows with
  | [] => ""
  | first :: _ =>
      let headers := keys first in
      let csvRows :=
        [join "," headers] ++
        map (fun row => join "," (map (fun header => csv_value (get row header)) headers))
            rows in
      join LF csvRows
  end.

Definition exportTableData (connectionId database table format : string) : Task string :=
  let* pool := getConnectionPool connectionId in
  let* result := pool_query pool {| text := "SELECT * FROM " +:+ table; values := [] |} in
  if String.eqb format "json"
  then ret (JSON_stringify (pg_rows result) 2)
  else ret (to_csv (pg_rows result)).

End DatabaseStorage.

(** ** Well-formed states *)

(** Every reference held by [connectionPools] points to a pool on the
    heap that has not been ended. *)
Definition wf (w : World) : Prop :=
  forall id p, connectionPools w !! id = Some p ->
    exists o, heap w !! p = Some o /\ ended o = false.

(** ** Sample worlds and engines *)

Definition empty_world : World :=
  {| connectionPools := ∅; heap := []; connections := []; queryHistory := [];
     issued := []; now := 0; uuid := 0 |}.

Definition no_rows : PgResult :=
  {| pg_rows := []; pg_rowCount := Some 0; pg_fields := Some [] |}.

(** Sample refusals of the local store, worded after PostgreSQL. *)
Definition sample_out_of_range (n : Z) : Thrown :=
  ErrorObj ("value " +:+ String DQ (pretty n +:+ String DQ " is out of range for type integer")).

Definition sample_violates_reference (id : string) : Thrown :=
  ErrorObj "insert or update on table query_history violates foreign key constraint".

Definition sample_still_referenced (id : string) : Thrown :=
  ErrorObj "update or delete on table connections violates foreign key constraint".

(** An engine that accepts every statement after [elapsed] milliseconds
    and returns no rows. *)
Definition steady (elapsed : Z) : Remote :=
  {| construct := fun _ => None;
     answer := fun _ _ _ _ => (elapsed, Returned no_rows);
     shutdown := fun _ => None;
     out_of_range := sample_out_of_range;
     violates_reference := sample_violates_reference;
     still_referenced := sample_still_referenced |}.

(** An engine whose only table is [users], with columns [id] and
    [username]; any other statement is accepted and returns no rows. *)
Definition users_only : Remote :=
  {| construct := fun _ => None;
     answer := fun _ _ _ s =>
       if String.eqb (text s) sql_tables then
         (1, Returned {| pg_rows := [[("name", VStr "users"); ("schema", VStr "public");
                                      ("row_count", VStr "3")]];
                         pg_rowCount := Some 1;
                         pg_fields := Some ["name"; "schema"; "row_count"] |})
       else if String.eqb (text s) sql_columns
               && bool_decide (values s = [VStr "users"]) then
         (1, Returned {| pg_rows := [[("name", VStr "id")]; [("name", VStr "username")]];
                         pg_rowCount := Some 2;
                         pg_fields := Some ["name"] |})
       else (1, Returned no_rows);
     shutdown := fun _ => None;
     out_of_range := sample_out_of_range;
     violates_reference := sample_violates_reference;
     still_referenced := sample_still_referenced |}.

(** An engine that rejects every statement. *)
Definition rejecting : Remote :=
  {| construct := fun _ => None;
     answer := fun _ _ _ _ => (2, Threw (ErrorObj "syntax error at or near nonsense"));
     shutdown := fun _ => None;
     out_of_range := sample_out_of_range;
     violates_reference := sample_violates_reference;
     still_referenced := sample_still_referenced |}.

(** An engine with one table of one row. *)
Definition one_row : Remote :=
  {| construct := fun _ => None;
     answer := fun _ _ _ _ =>
       (1, Returned {| pg_rows := [[("id", VNum 1); ("name", VStr "A,B")]];
                       pg_rowCount := Some 1;
                       pg_fields := Some ["id"; "name"] |});
     shutdown := fun _ => None;
     out_of_range := sample_out_of_range;
     violates_reference := sample_violates_reference;
     still_referenced := sample_still_referenced |}.

Definition sample (secret : string) : InsertConnection :=
  {| ic_name := "main"; ic_host := "db.example.org"; ic_port := None;
     ic_database := "app"; ic_username := "admin"; ic_password := secret;
     ic_ssl := None |}.

Definition new_password (secret : string) : PartialConnection :=
  {| pc_name := None; pc_host := None; pc_port := None; pc_database := None;
     pc_username := None; pc_password := Some secret; pc_ssl := None |}.

(** The world after one connection has been registered; its id is the
    first one generated. *)
Definition registered (secret : string) : World :=
  snd (createConnection (sample secret) empty_world).

(** ** The Exporter's two formats, following the specification's words

    These definitions are written from the text of the specification
    (section 4.6) and, for what a JSON string is, from the JSON grammar;
    they use none of the functions that embed the code, and
    [exportTableData] is compared with them below. *)

Module ExportSpec.

(** The double quote, the reverse solidus and the line feed. *)
Definition quote : ascii := "034"%char.
Definition backslash : ascii := "092"%char.
Definition newline : string := String "010"%char "".

(** The value contains the character [c]. *)
Definition mentions (c : ascii) (s : string) : bool :=
  existsb (Ascii.eqb c) (list_ascii_of_string s).

(** A comma, a double quote or a newline is in the value. *)
Definition must_wrap (s : string) : bool :=
  mentions "," s || mentions quote s || mentions "010" s.

(** Internal double quotes doubled. *)
Definition doubled (s : string) : string :=
  string_of_list_ascii
    (flat_map (fun c => if Ascii.eqb c quote then [quote; quote] else [c])
              (list_ascii_of_string s)).

(** A value as text: a number in decimal, a string as it is, a boolean
    as [true] or [false]. *)
Definition stringified (v : Value) : string :=
  match v with
  | VNull => "null"
  | VNum n => pretty n
  | VStr s => s
  | VBool b => if b then "true" else "false"
  end.

(** The column names of a row, and the value of a row in a column (none
    when the row has no such column). *)
Definition names (row : Row) : list string := map fst row.

Definition value_in (row : Row) (name : string) : option Value :=
  snd <$> List.find (fun member => String.eqb (fst member) name) row.

(** A field: empty for null and undefined, else the stringified value,
    wrapped in double quotes when it must be. *)
Definition field (v : option Value) : string :=
  match v with
  | None | Some VNull => ""
  | Some v =>
      let s := stringified v in
      if must_wrap s then String quote (doubled s) +:+ String quote "" else s
  end.

Fixpoint separated (sep : string) (items : list string) : string :=
  match items with
  | [] => ""
  | [x] => x
  | x :: rest => x +:+ sep +:+ separated sep rest
  end.

Definition data_line (names : list string) (row : Row) : string :=
  separated "," (map (fun name => field (value_in row name)) names).

(** No header for an empty table; else the header line of the first
    row's keys, followed by one line per row. *)
Definition csv (rows : list Row) : string :=
  match rows with
  | [] => ""
  | first :: _ =>
      fold_left (fun document row => document +:+ newline +:+ data_line (names first) row)
                rows (separated "," (names first))
  end.

(** *** JSON text (RFC 8259)

    A string is written between double quotes; the double quote and the
    reverse solidus are written after a reverse solidus; a control
    character (below 32) is written as its two-character escape when it
    has one, else as [\u00] and its two hexadecimal digits in lower
    case; every other character is written as it is. *)

Definition two_character_escape (c : ascii) : option ascii :=
  if Ascii.eqb c "008" then Some "b"%char
  else if Ascii.eqb c "009" then Some "t"%char
  else if Ascii.eqb c "010" then Some "n"%char
  else if Ascii.eqb c "012" then Some "f"%char
  else if Ascii.eqb c "013" then Some "r"%char
  else if Ascii.eqb c quote then Some quote
  else if Ascii.eqb c backslash then Some backslash
  else None.

Definition is_control (c : ascii) : bool := (N_of_ascii c <? 32)%N.

Definition hexadecimal (n : N) : ascii :=
  nth (N.to_nat n) (list_ascii_of_string "0123456789abcdef") "0"%char.

Definition escaped (c : ascii) : list ascii :=
  match two_character_escape c with
  | Some e => [backslash; e]
  | None =>
      if is_control c then
        [backslash; "u"; "0"; "0";
         hexadecimal (N_of_ascii c / 16); hexadecimal (N_of_ascii c mod 16)]%char
      else [c]
  end.

Definition quoted (s : string) : string :=
  string_of_list_ascii
    (quote :: flat_map escaped (list_ascii_of_string s) ++ [quote]).

(** Reading a JSON string back (characters below 256): what a parser
    makes of the text between the opening quote and the end. *)
Definition hexadecimal_value (c : ascii) : option N :=
  let n := N_of_ascii c in
  (if (48 <=? n) && (n <=? 57) then Some (n - 48)
   else if (97 <=? n) && (n <=? 102) then Some (n - 87)
   else if (65 <=? n) && (n <=? 70) then Some (n - 55)
   else None)%N.

Definition escape_named (e : ascii) : option ascii :=
  if Ascii.eqb e "b" then Some "008"%char
  else if Ascii.eqb e "t" then Some "009"%char
  else if Ascii.eqb e "n" then Some "010"%char
  else if Ascii.eqb e "f" then Some "012"%char
  else if Ascii.eqb e "r" then Some "013"%char
  else if Ascii.eqb e quote then Some quote
  else if Ascii.eqb e backslash then Some backslash
  else if Ascii.eqb e "/" then Some "/"%char
  else None.

Fixpoint read_characters (text : list ascii) : option (list ascii) :=
  match text with
  | [] => None
  | c :: rest =>
      if Ascii.eqb c quote then
        match rest with [] => Some [] | _ => None end
      else if Ascii.eqb c backslash then
        match rest with
        | [] => None
        | e :: rest1 =>
            if Ascii.eqb e "u" then
              match rest1 with
              | h1 :: h2 :: h3 :: h4 :: rest2 =>
                  match hexadecimal_value h1, hexadecimal_value h2,
                        hexadecimal_value h3, hexadecimal_value h4 with
                  | Some d1, Some d2, Some d3, Some d4 =>
                      let code := (((d1 * 16 + d2) * 16 + d3) * 16 + d4)%N in
                      if (code <? 256)%N
                      then cons (ascii_of_N code) <$> read_characters rest2
                      else None
                  | _, _, _, _ => None
                  end
              | _ => None
              end
            else
              match escape_named e with
              | Some x => cons x <$> read_characters rest1
              | None => None
              end
        end
      else if is_control c then None
      else cons c <$> read_characters rest
  end.

Definition read (literal : string) : option string :=
  match list_ascii_of_string literal with
  | c :: text =>
      if Ascii.eqb c quote then string_of_list_ascii <$> read_characters text
      else None
  | [] => None
  end.

(** A scalar of a row in JSON; null is written [null]. *)
Definition scalar (v : Value) : string :=
  match v with
  | VNull => "null"
  | VNum n => pretty n
  | VStr s => quoted s
  | VBool b => if b then "true" else "false"
  end.

(** A row object at nesting level one: its members at level two, one
    per line, two spaces for each level. *)
Definition object (row : Row) : string :=
  match row with
  | [] => "  {}"
  | _ =>
      "  {" +:+ newline
      +:+ separated ("," +:+ newline)
            (map (fun m => "    " +:+ quoted (fst m) +:+ ": " +:+ scalar (snd m)) row)
      +:+ newline +:+ "  }"
  end.

(** The pretty-printed array of the row objects; [[]] when there is
    none. *)
Definition json (rows : list Row) : string :=
  match rows with
  | [] => "[]"
  | _ => "[" +:+ newline +:+ separated ("," +:+ newline) (map object rows)
             +:+ newline +:+ "]"
  end.

Definition export (format : string) (rows : list Row) : string :=
  if String.eqb format "json" then json rows else csv rows.

(** The rows whose numbers are safe integers: the values that the
    export treats as the row holds them. *)
Definition exact (rows : list Row) : Prop :=
  Forall (Forall (fun member =>
                    match snd member with VNum n => safe_integer n | _ => True end))
         rows.

End ExportSpec.

(** ** Acquiring a pool, case by case *)

(** The four ways [getConnectionPool] can go. *)
Inductive Acquired (R : Remote) (id : string) (w : World)
  : Completion (option nat) -> World -> Prop :=
| acquired_cached p :
    connectionPools w !! id = Some p ->
    Acquired R id w (Returned (Some p)) w
| acquired_missing :
    connectionPools w !! id = None ->
    head (filter (fun c => c_id c = id) (connections w)) = None ->
    Acquired R id w (Threw (ErrorObj "Connection not found")) w
| acquired_refused c e :
    connectionPools w !! id = None ->
    head (filter (fun c => c_id c = id) (connections w)) = Some c ->
    construct R (pool_options_of_record c) = Some e ->
    Acquired R id w (Threw e) w
| acquired_built c :
    connectionPools w !! id = None ->
    head (filter (fun c => c_id c = id) (connections w)) = Some c ->
    construct R (pool_options_of_record c) = None ->
    Acquired R id w (Returned (Some (length (heap w))))
      (set_connectionPools (insert id (length (heap w)))
         (set_heap (fun h => h ++ [{| config := pool_options_of_record c; ended := false |}]) w)).

(** ** The Data Browser's conditions, one filter at a time *)

(** The condition that the [i]-th surviving filter entry contributes
    when parameters are numbered from [first], and the value it binds. *)
Definition condition_of (first : Z) (i : nat) (entry : string * option Value) : string :=
  fst entry +:+ "::text ILIKE $" +:+ pretty (first + Z.of_nat i).

Definition pattern_of (entry : string * option Value) : Value :=
  VStr ("%" +:+ ToString_opt (snd entry) +:+ "%").

(** The filter entries that survive: present and not the empty string. *)
Definition surviving (filters : option (list (string * option Value)))
  : list (string * option Value) :=
  List.filter filter_present (default [] filters).

Definition where_clause (kept : list (string * option Value)) : string :=
  match kept with
  | [] => ""
  | _ => "WHERE " +:+ join " AND " (imap (condition_of 3) kept)
  end.

(** ** What the Query Executor records *)

(** The two entries [executeQuery] hands to [saveQueryHistory]. *)
Definition success_entry (connectionId query : string) (elapsed : Z) (result : PgResult)
  : InsertQueryHistory :=
  {| ih_connectionId := connectionId;
     ih_query := query;
     ih_executionTime := elapsed;
     ih_rowsAffected := or_zero (pg_rowCount result);
     ih_success := true;
     ih_error := None |}.

Definition failure_entry (connectionId query : string) (elapsed : Z) (error : Thrown)
  : InsertQueryHistory :=
  {| ih_connectionId := connectionId;
     ih_query := query;
     ih_executionTime := elapsed;
     ih_rowsAffected := 0;
     ih_success := false;
     ih_error := Some (errorMessage error) |}.

(** The normalised result of a statement that took [elapsed]. *)
Definition normalised (elapsed : Z) (result : PgResult) : QueryResult :=
  {| rows := pg_rows result;
     rowCount := or_zero (pg_rowCount result);
     executionTime := elapsed;
     columns := default [] (pg_fields result) |}.

(** The store takes the entry: both numbers fit their column and a
    stored connection has the connection id. *)
Definition accepted (history : InsertQueryHistory) (w : World) : bool :=
  in_int4 (ih_executionTime history) && in_int4 (ih_rowsAffected history) &&
  bool_decide (Exists (fun c => c_id c = ih_connectionId history) (connections w)).

(** What the store throws for an entry that it does not take. *)
Definition refusal (R : Remote) (history : InsertQueryHistory) : Thrown :=
  if negb (in_int4 (ih_executionTime history)) then
    out_of_range R (ih_executionTime history)
  else if negb (in_int4 (ih_rowsAffected history)) then
    out_of_range R (ih_rowsAffected history)
  else violates_reference R (ih_connectionId history).

(** The row that [saveQueryHistory] stores for an entry in world [w]. *)
Definition stored (history : InsertQueryHistory) (w : World) : QueryHistory :=
  {| h_id := pretty (uuid w);
     h_connectionId := ih_connectionId history;
     h_query := ih_query history;
     h_executionTime := ih_executionTime history;
     h_rowsAffected := ih_rowsAffected history;
     h_success := ih_success history;
     h_error := ih_error history;
     h_createdAt := now w |}.

(** ** Sample runs *)

(** The first registered connection, its pool once acquired, and the
    pool object that is then at the head of the heap. *)
Definition acquired_world (R : Remote) : World :=
  snd (getConnectionPool R "0" (registered "s")).

Definition first_pool : Pool :=
  {| config := {| host := "db.example.org"; port := Some 5432; database := "app";
                  user := "admin"; password := "s"; ssl := Some false |};
     ended := false |}.

Definition one_row_result : PgResult :=
  {| pg_rows := [[("id", VNum 1); ("name", VStr "A,B")]];
     pg_rowCount := Some 1;
     pg_fields := Some ["id"; "name"] |}.

(** ** The routes of server/routes.ts that call the storage directly

    A handler is an asynchronous function whose whole body is inside
    [try]/[catch]: it always answers and never throws.  The request body
    is an object (the JSON body parser ran), of which [req.body.query] is
    read; [req.query.format] is a string or is absent. *)

(** What was handed to [res.json] or [res.send]. *)
Inductive Sent (A : Type) : Type :=
| Json (payload : A)
| JsonError (error : string)
| Raw (data : string).
Arguments Json {A} payload.
Arguments JsonError {A} error.
Arguments Raw {A} data.

Record Response (A : Type) : Type := {
  status : Z;
  headers : list (string * string);     (* the calls of [res.setHeader] that returned *)
  sent : Sent A;
}.
Arguments status {A} r.
Arguments headers {A} r.
Arguments sent {A} r.

Definition Handler (A : Type) : Type := World -> Response A * World.

(** Node's [checkInvalidHeaderChar]: the value holds a character that is
    not a tab, a printable ASCII character or a character from 128 on. *)
Definition checkInvalidHeaderChar (value : string) : bool :=
  existsb (fun c => let n := N_of_ascii c in
                    negb ((n =? 9) || (32 <=? n) && (n <=? 126) || (128 <=? n))%N)
          (list_ascii_of_string value).

(** [res.json(payload)] with the default status. *)
Definition ok {A} (payload : A) : Response A :=
  {| status := 200; headers := []; sent := Json payload |}.

(** [res.status(code).json({ error })]. *)
Definition failed {A} (code : Z) (error : string) : Response A :=
  {| status := code; headers := []; sent := JsonError error |}.

(** [try { res.json(await m) } catch (error) { res.status(500).json({ error: message }) }],
    the body of the routes that only read. *)
Definition answer_or_500 {A} (m : Task A) (message : string) : Handler A :=
  fun w =>
    match m w with
    | (Returned payload, w') => (ok payload, w')
    | (Threw _, w') => (failed 500 message, w')
    end.

(** JavaScript truthiness of a property read. *)
Definition truthy (x : option Value) : bool :=
  match x with
  | None | Some VNull | Some (VBool false) | Some (VNum 0) | Some (VStr "") => false
  | Some _ => true
  end.

(** [typeof x === 'string'], with the string when it is one. *)
Definition as_string (x : option Value) : option string :=
  match x with
  | Some (VStr s) => Some s
  | _ => None
  end.

Section Routes.

Variable R : Remote.

(** GET /api/connections/:id/databases *)
Definition databasesRoute (id : string) : Handler (list (option Value)) :=
  answer_or_500 (getDatabases R id) "Failed to fetch databases".

(** GET /api/connections/:id/databases/:database/tables *)
Definition tablesRoute (id database : string) : Handler (list DatabaseTable) :=
  answer_or_500 (getTables R id database) "Failed to fetch tables".

(** GET /api/connections/:id/databases/:database/tables/:table/structure *)
Definition structureRoute (id database table : string) : Handler (list TableColumn) :=
  answer_or_500 (getTableColumns R id database table) "Failed to fetch table structure".

(** GET /api/connections/:id/history *)
Definition historyRoute (id : string) : Handler (list QueryHistory) :=
  answer_or_500 (getQueryHistory id) "Failed to fetch query history".

(** DELETE /api/connections/:id; the payload is [{ success: true }]. *)
Definition deleteRoute (id : string) : Handler bool :=
  answer_or_500 (bind (deleteConnection R id) (fun _ => ret true))
                "Failed to delete connection".

(** GET /api/connections/:id/databases/:database/tables/:table/export;
    [res.setHeader] throws on a value that is not a header value, inside
    the [try], after the first header has been set. *)
Definition exportRoute (id database table : string) (format : option string)
  : Handler string :=
  fun w =>
    let format := default "csv" format in
    match exportTableData R id database table format w with
    | (Returned data, w') =>
        let contentType :=
          if String.eqb format "json" then "application/json" else "text/csv" in
        let filename := table +:+ "." +:+ format in
        let disposition :=
          "attachment; filename=" +:+ String DQ (filename +:+ String DQ "") in
        if checkInvalidHeaderChar disposition then
          ({| status := 500;
              headers := [("Content-Type", contentType)];
              sent := JsonError "Failed to export table data" |}, w')
        else
          ({| status := 200;
              headers := [("Content-Type", contentType);
                          ("Content-Disposition", disposition)];
              sent := Raw data |}, w')
    | (Threw _, w') => (failed 500 "Failed to export table data", w')
    end.

(** POST /api/connections/:id/query *)
Definition queryRoute (id : string) (query : option Value) : Handler QueryResult :=
  fun w =>
    match as_string query with
    | Some text =>
        if negb (truthy query) then (failed 400 "Query is required", w)
        else
          match executeQuery R id text w with
          | (Returned result, w') => (ok result, w')
          | (Threw error, w') =>
              (failed 500 (match error with
                           | ErrorObj message => message
                           | NonError _ => "Query execution failed"
                           end), w')
          end
    | None => (failed 400 "Query is required", w)
    end.

End Routes.

(** ** A second invariant: a pool is kept only for a stored record *)

Definition backed (w : World) : Prop :=
  forall id p, connectionPools w !! id = Some p ->
    exists c, c ∈ connections w /\ c_id c = id.

(** ** One statement on the connection's pool

    [getDatabases], [getTables] and [getTableColumns] are this, with
    their statement and their reading of the rows. *)

Definition query_on {A} (R : Remote) (id : string) (s : Statement) (k : PgResult -> A)
  : Task A :=
  bind (getConnectionPool R id)
       (fun pool => bind (pool_query R pool s) (fun result => ret (k result))).

(** ** A property of states kept by every method of the storage *)

Definition kept_by_storage (I : World -> Prop) (R : Remote) (w : World) : Prop :=
  (forall connection, I (snd (createConnection connection w))) /\
  (forall id changes, I (snd (updateConnection R id changes w))) /\
  (forall id, I (snd (deleteConnection R id w))) /\
  (forall connection, I (snd (testConnection R connection w))) /\
  (forall id, I (snd (getConnectionPool R id w))) /\
  (forall id, I (snd (getDatabases R id w))) /\
  (forall id database, I (snd (getTables R id database w))) /\
  (forall id database table, I (snd (getTableColumns R id database table w))) /\
  (forall id database table offset limit filters,
     I (snd (getTableData R id database table offset limit filters w))) /\
  (forall id query, I (snd (executeQuery R id query w))) /\
  (forall id database table format, I (snd (exportTableData R id database table format w))) /\
  (forall id, I (snd (getQueryHistory id w))) /\
  (forall history, I (snd (saveQueryHistory R history w))).

(** ** The local store as another state left it *)

Definition same_local_store (w w' : World) : Prop :=
  connections w' = connections w /\ queryHistory w' = queryHistory w.

(** ** The catch block of the Query Executor *)

(** What [executeQuery] does with an error caught after [elapsed]
    milliseconds: a failure entry is saved and the error thrown again;
    when the store refuses the entry, its refusal is what is thrown. *)
Definition caught (R : Remote) (connectionId query : string) (elapsed : Z)
    (error : Thrown) (w : World) : Completion QueryResult * World :=
  if accepted (failure_entry connectionId query elapsed error) w
  then (Threw error,
        set_queryHistory
          (fun t => t ++ [stored (failure_entry connectionId query elapsed error) w])
          (next_uuid w))
  else (Threw (refusal R (failure_entry connectionId query elapsed error)), w).

(** An engine whose statement touches more rows than a 32-bit count
    holds. *)
Definition bulk : Remote :=
  {| construct := fun _ => None;
     answer := fun _ _ _ _ =>
       (5, Returned {| pg_rows := []; pg_rowCount := Some 3000000000;
                       pg_fields := Some [] |});
     shutdown := fun _ => None;
     out_of_range := sample_out_of_range;
     violates_reference := sample_violates_reference;
     still_referenced := sample_still_referenced |}.


(** ** The order of a listing *)

(** [a] was created no later than [b]. *)
Definition not_later (a b : QueryHistory) : Prop := h_createdAt a <= h_createdAt b.

(** ** What an update asks for

    The outcome of an update, said field by field and without the code's
    [merge]: a field that was supplied holds the value supplied, a field
    that was not holds what it held; the id and the creation time stay
    and the update time is the time of the call. *)

Definition written {A} (supplied : option A) (old new : A) : Prop :=
  match supplied with
  | Some v => new = v
  | None => new = old
  end.

Definition updated_record (changes : PartialConnection) (stamp : Z)
    (old new : Connection) : Prop :=
  c_id new = c_id old /\
  written (pc_name changes) (c_name old) (c_name new) /\
  written (pc_host changes) (c_host old) (c_host new) /\
  written (pc_port changes) (c_port old) (c_port new) /\
  written (pc_database changes) (c_database old) (c_database new) /\
  written (pc_username changes) (c_username old) (c_username new) /\
  written (pc_password changes) (c_password old) (c_password new) /\
  written (Some <$> pc_ssl changes) (c_ssl old) (c_ssl new) /\
  c_createdAt new = c_createdAt old /\
  c_updatedAt new = stamp.


(** * Properties *)

(** ** Strings *)

Lemma append_cons (x : ascii) (a b : string) : String x a +:+ b = String x (a +:+ b).
Proof. reflexivity. Qed.

Lemma append_empty (b : string) : "" +:+ b = b.
Proof. reflexivity. Qed.

Lemma append_assoc (a b c : string) : (a +:+ b) +:+ c = a +:+ (b +:+ c).
Proof.
  induction a as [|x a IH]; [reflexivity |].
  rewrite !append_cons. now rewrite IH.
Qed.

Lemma list_ascii_app (a b : list ascii) :
  string_of_list_ascii (a ++ b) = string_of_list_ascii a +:+ string_of_list_ascii b.
Proof.
  induction a as [|x a IH]; [reflexivity |].
  cbn [app string_of_list_ascii]. rewrite append_cons. now rewrite IH.
Qed.

Lemma prefix_single (c : ascii) (s : string) :
  String.prefix (String c "") s =
  match s with
  | EmptyString => false
  | String d _ => Ascii.eqb c d
  end.
Proof.
  destruct s as [|d s]; simpl; [reflexivity |].
  destruct (ascii_dec c d) as [->|Hne].
  - rewrite Ascii.eqb_refl. now destruct s.
  - symmetry. now apply Ascii.eqb_neq.
Qed.

(** Looking for a one-character string is looking for the character. *)
Lemma includes_single (c : ascii) (s : string) :
  includes s (String c "") = ExportSpec.mentions c s.
Proof.
  unfold ExportSpec.mentions.
  induction s as [|d s IH].
  - reflexivity.
  - cbn [includes list_ascii_of_string existsb].
    rewrite prefix_single, IH. reflexivity.
Qed.

Lemma replace_dquotes_doubled (s : string) :
  replace_dquotes s = ExportSpec.doubled s.
Proof.
  unfold ExportSpec.doubled. change ExportSpec.quote with DQ.
  induction s as [|c s IH]; [reflexivity |].
  cbn [replace_dquotes list_ascii_of_string flat_map].
  rewrite list_ascii_app, <- IH.
  destruct (Ascii.eqb c DQ); reflexivity.
Qed.

Lemma ToString_stringified (v : Value) : ToString v = ExportSpec.stringified v.
Proof. destruct v as [| n | s | []]; reflexivity. Qed.

Lemma csv_value_field (v : option Value) : csv_value v = ExportSpec.field v.
Proof.
  destruct v as [[| n | s | b]|]; try reflexivity;
    unfold csv_value, ExportSpec.field, ExportSpec.must_wrap, LF;
    rewrite !includes_single, replace_dquotes_doubled, ToString_stringified;
    change ExportSpec.quote with DQ;
    match goal with |- (if ?c then _ else _) = _ => destruct c end;
    simpl; try reflexivity; now rewrite append_assoc.
Qed.

Lemma get_value_in (row : Row) (name : string) :
  get row name = ExportSpec.value_in row name.
Proof.
  unfold ExportSpec.value_in.
  induction row as [|[k v] row IH]; [reflexivity |].
  cbn [get List.find fst]. destruct (String.eqb k name); [reflexivity | exact IH].
Qed.

Lemma join_separated (sep : string) (items : list string) :
  join sep items = ExportSpec.separated sep items.
Proof.
  unfold join.
  induction items as [|x rest IH]; [reflexivity |].
  destruct rest as [|y rest]; [reflexivity |].
  change (x +:+ sep +:+ String.concat sep (y :: rest)
          = x +:+ sep +:+ ExportSpec.separated sep (y :: rest)).
  now rewrite IH.
Qed.

Lemma separated_snoc (sep x : string) (items : list string) :
  items <> [] ->
  ExportSpec.separated sep (items ++ [x]) = ExportSpec.separated sep items +:+ sep +:+ x.
Proof.
  induction items as [|y [|z rest] IH]; intros Hne.
  - congruence.
  - reflexivity.
  - change (y +:+ sep +:+ ExportSpec.separated sep ((z :: rest) ++ [x])
            = (y +:+ sep +:+ ExportSpec.separated sep (z :: rest)) +:+ sep +:+ x).
    rewrite IH by discriminate. now rewrite !append_assoc.
Qed.

(** A document grown line by line is the lines joined by newlines. *)
Lemma lines_folded (f : Row -> string) (rows : list Row) (header : string) :
  fold_left (fun document row => document +:+ LF +:+ f row) rows header
  = ExportSpec.separated LF (header :: map f rows).
Proof.
  induction rows as [|row rows IH] using rev_ind; [reflexivity |].
  rewrite fold_left_app, map_app. cbn [fold_left map].
  rewrite IH, app_comm_cons, separated_snoc by discriminate.
  reflexivity.
Qed.

Lemma to_csv_spec (rows : list Row) : to_csv rows = ExportSpec.csv rows.
Proof.
  destruct rows as [|first rest]; [reflexivity |].
  unfold to_csv, ExportSpec.csv, ExportSpec.data_line.
  change ExportSpec.newline with LF. change ExportSpec.names with keys.
  rewrite !lines_folded, !join_separated.
  cbn [app]. f_equal. f_equal.
  apply map_ext. intros row. rewrite join_separated. f_equal.
  apply map_ext. intros name. rewrite <- get_value_in. apply csv_value_field.
Qed.

(** Indenting every item is indenting the first and the separator. *)
Lemma separated_indent (sep ind : string) (items : list string) :
  items <> [] ->
  ExportSpec.separated sep (map (fun x => ind +:+ x) items)
  = ind +:+ ExportSpec.separated (sep +:+ ind) items.
Proof.
  induction items as [|y [|z rest] IH]; intros Hne.
  - congruence.
  - reflexivity.
  - change ((ind +:+ y) +:+ sep +:+ ExportSpec.separated sep (map (fun x => ind +:+ x) (z :: rest))
            = ind +:+ y +:+ (sep +:+ ind) +:+ ExportSpec.separated (sep +:+ ind) (z :: rest)).
    rewrite IH by discriminate. now rewrite !append_assoc.
Qed.

(** The escape of one character, against the table of the grammar. *)
Lemma json_escape_escaped (c : ascii) :
  json_escape c = string_of_list_ascii (ExportSpec.escaped c).
Proof.
  destruct c as [[] [] [] [] [] [] [] []]; reflexivity.
Qed.

Lemma QuoteJSONString_quoted (s : string) : QuoteJSONString s = ExportSpec.quoted s.
Proof.
  unfold QuoteJSONString, ExportSpec.quoted.
  cbn [string_of_list_ascii]. change ExportSpec.quote with DQ. f_equal.
  induction s as [|c s IH]; [reflexivity |].
  cbn [json_escape_all list_ascii_of_string flat_map].
  rewrite <- app_assoc, list_ascii_app, <- IH, <- append_assoc.
  now rewrite json_escape_escaped.
Qed.

Lemma scalar_property (v : Value) : ExportSpec.scalar v = SerializeJSONProperty v.
Proof.
  destruct v as [| n | s | []]; try reflexivity.
  symmetry. apply QuoteJSONString_quoted.
Qed.

Lemma object_spec (row : Row) :
  ExportSpec.object row = "  " +:+ SerializeJSONObject "  " "  " row.
Proof.
  destruct row as [|m row]; [reflexivity |].
  unfold ExportSpec.object, SerializeJSONObject, join.
  change String.concat with ExportSpec.separated.
  change ExportSpec.newline with LF.
  set (members := m :: row).
  replace (map (fun m0 => "    " +:+ ExportSpec.quoted (fst m0) +:+ ": " +:+ ExportSpec.scalar (snd m0)) members)
    with (map (fun x => "    " +:+ x)
              (map (fun '(k, v) => QuoteJSONString k +:+ ": " +:+ SerializeJSONProperty v) members)).
  2:{ rewrite map_map. apply map_ext. intros [k v]. cbn [fst snd].
      now rewrite <- scalar_property, QuoteJSONString_quoted. }
  rewrite separated_indent by (subst members; discriminate).
  subst members. cbn [map]. destruct m as [k v].
  simpl. rewrite !append_assoc. reflexivity.
Qed.

Lemma JSON_stringify_spec (rows : list Row) : JSON_stringify rows 2 = ExportSpec.json rows.
Proof.
  destruct rows as [|row rows]; [reflexivity |].
  unfold JSON_stringify, SerializeJSONArray, ExportSpec.json, join.
  change String.concat with ExportSpec.separated.
  change ExportSpec.newline with LF.
  change (String.concat "" (replicate (Nat.min 2 10) " ")) with "  ".
  set (all := row :: rows).
  replace (map ExportSpec.object all)
    with (map (fun x => "  " +:+ x) (map (SerializeJSONObject "  " "  ") all)).
  2:{ rewrite map_map. apply map_ext. intros r. symmetry. apply object_spec. }
  rewrite separated_indent by (subst all; discriminate).
  subst all. cbn [map]. simpl. rewrite !append_assoc. reflexivity.
Qed.

(** ** Acquiring a pool *)

Lemma getConnectionPool_acquired (R : Remote) (id : string) (w : World) :
  Acquired R id w (fst (getConnectionPool R id w)) (snd (getConnectionPool R id w)).
Proof.
  unfold getConnectionPool, bind, gets, getConnection, ret, throw, modify, new_Pool.
  destruct (connectionPools w !! id) as [p|] eqn:Hp.
  - rewrite bool_decide_eq_true_2 by eauto. simpl. rewrite Hp.
    now apply acquired_cached.
  - rewrite bool_decide_eq_false_2 by (intros [? ?]; discriminate). simpl.
    destruct (head _) as [c|] eqn:Hc.
    + destruct (construct R (pool_options_of_record c)) as [e|] eqn:He; simpl.
      * eapply acquired_refused; eauto.
      * rewrite lookup_insert_eq. simpl. now apply acquired_built.
    + now apply acquired_missing.
Qed.

(** Acquiring a pool sends nothing, records nothing and lets no time
    pass. *)
Lemma getConnectionPool_frame (R : Remote) (id : string) (w w1 : World) c :
  getConnectionPool R id w = (c, w1) ->
  issued w1 = issued w /\ queryHistory w1 = queryHistory w /\
  now w1 = now w /\ connections w1 = connections w /\ uuid w1 = uuid w.
Proof.
  intros H. pose proof (getConnectionPool_acquired R id w) as A.
  rewrite H in A. simpl in A. inversion A; subst; auto.
Qed.

Lemma wf_empty : wf empty_world.
Proof. intros id p H. unfold empty_world in H. simpl in H. now rewrite lookup_empty in H. Qed.

(** A pool that is handed out is on the heap and open, and the state
    stays well formed. *)
Lemma getConnectionPool_open (R : Remote) (id : string) (w w1 : World) pool :
  wf w ->
  getConnectionPool R id w = (Returned pool, w1) ->
  wf w1 /\ exists p o, pool = Some p /\ connectionPools w1 !! id = Some p /\
                       heap w1 !! p = Some o /\ ended o = false.
Proof.
  intros Hwf H. pose proof (getConnectionPool_acquired R id w) as A.
  rewrite H in A. simpl in A. inversion A; subst.
  - split; [assumption |]. destruct (Hwf id p) as (o & Ho & He); eauto 10.
  - split.
    + intros id' p'. simpl. destruct (decide (id = id')) as [->|Hne].
      * rewrite lookup_insert_eq. intros [= <-].
        eexists. split; [apply list_lookup_middle; reflexivity | reflexivity].
      * rewrite lookup_insert_ne by assumption. intros Hp'.
        destruct (Hwf id' p') as (o & Ho & He); [assumption |].
        exists o. split; [| assumption]. now apply lookup_app_l_Some.
    + eexists _, _. split; [reflexivity |]. simpl. rewrite lookup_insert_eq.
      split; [reflexivity |].
      split; [apply list_lookup_middle; reflexivity | reflexivity].
Qed.

(** ** Talking to the engine *)

(** On an open pool the statement goes out and the engine's answer comes
    back as it is. *)
Lemma pool_query_open (R : Remote) (p : nat) (o : Pool) (s : Statement) (w : World) :
  heap w !! p = Some o -> ended o = false ->
  pool_query R (Some p) s w =
  (snd (answer R (config o) (now w) (issued w) s),
   submit p s (fst (answer R (config o) (now w) (issued w) s)) w).
Proof.
  intros Ho He. unfold pool_query. simpl. rewrite Ho. simpl. rewrite He.
  now destruct (answer R (config o) (now w) (issued w) s).
Qed.

(** Whatever the reference, a query changes neither the pools nor the
    local store. *)
Lemma pool_query_frame (R : Remote) (pool : option nat) (s : Statement) (w : World) :
  let w' := snd (pool_query R pool s w) in
  connectionPools w' = connectionPools w /\ heap w' = heap w /\
  connections w' = connections w /\ queryHistory w' = queryHistory w /\
  uuid w' = uuid w.
Proof.
  unfold pool_query.
  destruct (pool ≫= _) as [[p o]|]; simpl; [| auto].
  destruct (ended o); simpl; [auto |].
  now destruct (answer R (config o) (now w) (issued w) s).
Qed.

(** ** The statement of the Data Browser *)

(** The callback run over the surviving entries: the counter moves by
    one per entry, each entry binds its pattern and gives its condition. *)
Lemma add_condition_fold (kept : list (string * option Value)) (b : Building) :
  fold_left add_condition kept b =
  {| paramCount := paramCount b + Z.of_nat (length kept);
     bound := bound b ++ map pattern_of kept;
     conditions := conditions b ++ imap (condition_of (paramCount b + 1)) kept |}.
Proof.
  revert b. induction kept as [|entry kept IH]; intros b.
  - destruct b. simpl. rewrite Z.add_0_r, !app_nil_r. reflexivity.
  - cbn [fold_left]. rewrite IH. unfold add_condition at 1 2 3 4.
    cbn [paramCount bound conditions length map]. rewrite imap_cons.
    f_equal.
    + lia.
    + now rewrite <- app_assoc.
    + rewrite <- app_assoc. cbn [app]. f_equal. f_equal.
      * unfold condition_of. now rewrite Z.add_0_r.
      * apply imap_ext. intros i e _. unfold condition_of. simpl.
        do 3 f_equal. lia.
Qed.

(** The statement, in closed form: the table name as given, one
    condition per surviving filter entry joined by AND, the patterns
    bound after [limit] and [offset]. *)
Lemma table_data_statement_shape (table : string) (offset limit : Z)
    (filters : option (list (string * option Value))) :
  table_data_statement table offset limit filters =
  {| text := "SELECT * FROM " +:+ table +:+ " " +:+ where_clause (surviving filters)
             +:+ " LIMIT $1 OFFSET $2";
     values := [VNum limit; VNum offset] ++ map pattern_of (surviving filters) |}.
Proof.
  unfold table_data_statement, surviving, where_clause.
  destruct filters as [[|entry entries]|]; try reflexivity.
  change (default [] (Some (entry :: entries))) with (entry :: entries).
  cbn [length Nat.ltb Nat.leb].
  rewrite add_condition_fold. cbn [paramCount bound conditions app].
  destruct (List.filter filter_present (entry :: entries)) as [|e kept]; reflexivity.
Qed.

(** ** The Query Executor *)

Lemma head_filter_elem {A} (P : A -> Prop) `{!forall x, Decision (P x)} (l : list A) (x : A) :
  head (filter P l) = Some x -> x ∈ l /\ P x.
Proof.
  intros Hhead. assert (Hin : x ∈ filter P l).
  { destruct (filter P l) as [|y rest]; [discriminate |].
    injection Hhead as ->. apply list_elem_of_here. }
  apply list_elem_of_filter in Hin. tauto.
Qed.

Lemma saveQueryHistory_run (R : Remote) (history : InsertQueryHistory) (w : World) :
  saveQueryHistory R history w =
  if accepted history w
  then (Returned (stored history w),
        set_queryHistory (fun t => t ++ [stored history w]) (next_uuid w))
  else (Threw (refusal R history), w).
Proof.
  unfold saveQueryHistory, accepted, refusal, bind, gets, throw.
  destruct (in_int4 (ih_executionTime history)); [| reflexivity].
  destruct (in_int4 (ih_rowsAffected history)); [| reflexivity].
  destruct (bool_decide _); reflexivity.
Qed.

(** An entry for a stored connection whose numbers fit is taken. *)
Lemma accepted_intro (history : InsertQueryHistory) (w : World) :
  in_int4 (ih_executionTime history) = true ->
  in_int4 (ih_rowsAffected history) = true ->
  Exists (fun c => c_id c = ih_connectionId history) (connections w) ->
  accepted history w = true.
Proof.
  intros Ht Hr Hc. unfold accepted. rewrite Ht, Hr.
  now rewrite bool_decide_eq_true_2.
Qed.

(** Whatever the store says, a save adds at most the entry and touches
    nothing else. *)
Lemma saveQueryHistory_frame (R : Remote) (history : InsertQueryHistory) (w : World) :
  let w' := snd (saveQueryHistory R history w) in
  connectionPools w' = connectionPools w /\ heap w' = heap w /\
  connections w' = connections w /\ issued w' = issued w /\ now w' = now w /\
  (queryHistory w' = queryHistory w \/
   queryHistory w' = queryHistory w ++ [stored history w]).
Proof.
  rewrite saveQueryHistory_run. destruct (accepted history w); simpl; auto 10.
Qed.

(** The catch block always throws. *)
Lemma caught_throws (R : Remote) (connectionId query : string) (elapsed : Z)
    (error : Thrown) (w : World) :
  exists thrown, fst (caught R connectionId query elapsed error w) = Threw thrown.
Proof. unfold caught. destruct (accepted _ w); eauto. Qed.

Lemma caught_frame (R : Remote) (connectionId query : string) (elapsed : Z)
    (error : Thrown) (w : World) :
  let w' := snd (caught R connectionId query elapsed error w) in
  connectionPools w' = connectionPools w /\ heap w' = heap w /\
  connections w' = connections w /\ issued w' = issued w /\ now w' = now w /\
  (queryHistory w' = queryHistory w \/
   queryHistory w' = queryHistory w
                     ++ [stored (failure_entry connectionId query elapsed error) w]).
Proof. unfold caught. destruct (accepted _ w); simpl; auto 10. Qed.

(** Once a pool is in hand, the call is the statement's completion
    followed by the write to the history, and by the catch block when
    the statement or that write fails. *)
Lemma executeQuery_run (R : Remote) (connectionId query : string) (w w1 : World)
    (pool : option nat) :
  getConnectionPool R connectionId w = (Returned pool, w1) ->
  executeQuery R connectionId query w =
  match pool_query R pool {| text := query; values := [] |} w1 with
  | (Returned result, w2) =>
      let entry := success_entry connectionId query (now w2 - now w1) result in
      if accepted entry w2
      then (Returned (normalised (now w2 - now w1) result),
            set_queryHistory (fun t => t ++ [stored entry w2]) (next_uuid w2))
      else caught R connectionId query (now w2 - now w1) (refusal R entry) w2
  | (Threw error, w2) => caught R connectionId query (now w2 - now w1) error w2
  end.
Proof.
  intros H. unfold executeQuery. unfold bind at 1. rewrite H.
  unfold bind at 1. unfold Date_now at 1, gets at 1.
  unfold try_catch. unfold bind at 1.
  destruct (pool_query R pool {| text := query; values := [] |} w1) as [[result|error] w2].
  - unfold bind at 1. unfold Date_now at 1, gets at 1. unfold bind at 1.
    fold (success_entry connectionId query (now w2 - now w1) result).
    rewrite saveQueryHistory_run.
    cbv beta iota zeta.
    destruct (accepted (success_entry connectionId query (now w2 - now w1) result) w2);
      [reflexivity |].
    unfold bind at 1. unfold Date_now at 1, gets at 1. unfold bind at 1.
    fold (failure_entry connectionId query (now w2 - now w1)
            (refusal R (success_entry connectionId query (now w2 - now w1) result))).
    rewrite saveQueryHistory_run. unfold caught.
    destruct (accepted _ w2); reflexivity.
  - unfold bind at 1. unfold Date_now at 1, gets at 1. unfold bind at 1.
    fold (failure_entry connectionId query (now w2 - now w1) error).
    rewrite saveQueryHistory_run. unfold caught.
    destruct (accepted _ w2); reflexivity.
Qed.

(** Without a pool the call ends where the acquisition ended. *)
Lemma executeQuery_no_pool (R : Remote) (connectionId query : string) (w w1 : World)
    (error : Thrown) :
  getConnectionPool R connectionId w = (Threw error, w1) ->
  executeQuery R connectionId query w = (Threw error, w1).
Proof. intros H. unfold executeQuery. unfold bind at 1. now rewrite H. Qed.

(** After the acquisition the call changes the history only, by at most
    one entry, which is for its own connection id and statement. *)
Lemma executeQuery_frame (R : Remote) (connectionId query : string) (w w1 : World)
    (pool : option nat) :
  getConnectionPool R connectionId w = (Returned pool, w1) ->
  let w' := snd (executeQuery R connectionId query w) in
  connectionPools w' = connectionPools w1 /\ heap w' = heap w1 /\
  connections w' = connections w1 /\
  (queryHistory w' = queryHistory w1 \/
   exists entry, queryHistory w' = queryHistory w1 ++ [entry] /\
                 h_connectionId entry = connectionId /\ h_query entry = query).
Proof.
  intros Hacq. rewrite (executeQuery_run _ _ _ _ _ _ Hacq).
  pose proof (pool_query_frame R pool {| text := query; values := [] |} w1) as F.
  destruct (pool_query R pool {| text := query; values := [] |} w1)
    as [[result|error] w2]; cbn [snd] in F; destruct F as (Hm & Hh & Hc & Hq & _);
    cbv zeta; unfold caught; repeat destruct (accepted _ w2); cbn [snd];
    rewrite <- Hm, <- Hh, <- Hc, <- Hq; simpl; eauto 10.
Qed.

(** The connection of a pool that was handed out has its record, in a
    state where every kept pool has one. *)
Lemma getConnectionPool_referenced (R : Remote) (id : string) (w w1 : World) pool :
  backed w ->
  getConnectionPool R id w = (Returned pool, w1) ->
  Exists (fun c => c_id c = id) (connections w1).
Proof.
  intros Hb H. pose proof (getConnectionPool_acquired R id w) as A.
  rewrite H in A. cbn [fst snd] in A. apply Exists_exists.
  inversion A as [p Hp | | | c Hnone Hc Hbuilt]; subst.
  - destruct (Hb _ _ Hp) as (c & Hin & Hid). now exists c.
  - apply head_filter_elem in Hc as [Hin Hid]. now exists c.
Qed.

Lemma accepted_success (connectionId query : string) (elapsed : Z) (result : PgResult)
    (w : World) :
  accepted (success_entry connectionId query elapsed result) w =
  in_int4 elapsed && in_int4 (or_zero (pg_rowCount result)) &&
  bool_decide (Exists (fun c => c_id c = connectionId) (connections w)).
Proof. reflexivity. Qed.

Lemma accepted_failure (connectionId query : string) (elapsed : Z) (error : Thrown)
    (w : World) :
  accepted (failure_entry connectionId query elapsed error) w =
  in_int4 elapsed && bool_decide (Exists (fun c => c_id c = connectionId) (connections w)).
Proof.
  unfold accepted, failure_entry. cbn [ih_executionTime ih_rowsAffected ih_connectionId].
  change (in_int4 0) with true. now rewrite andb_true_r.
Qed.

Lemma refusal_of_time (R : Remote) (history : InsertQueryHistory) :
  in_int4 (ih_executionTime history) = false ->
  refusal R history = out_of_range R (ih_executionTime history).
Proof. intros H. unfold refusal. now rewrite H. Qed.

Lemma backed_registered (secret : string) : backed (registered secret).
Proof.
  intros id p H.
  change (connectionPools (registered secret)) with (∅ : gmap string nat) in H.
  now rewrite lookup_empty in H.
Qed.




(** A statement that completes with a row count the history cannot hold
    is recorded as a failure, and the call throws the store's refusal. *)
Lemma completed_statement_recorded_as_failure :
  let run := executeQuery bulk "0" "DELETE FROM events" (registered "s") in
  fst run = Threw (sample_out_of_range 3000000000) /\
  map h_success (queryHistory (snd run)) = [false] /\
  map h_rowsAffected (queryHistory (snd run)) = [0].
Proof. vm_compute. auto. Qed.

(** The integers a history column holds are those of 32 bits. *)
Lemma in_int4_range (n : Z) : in_int4 n = true <-> - 2 ^ 31 <= n < 2 ^ 31.
Proof. unfold in_int4. rewrite andb_true_iff, !Z.leb_le. lia. Qed.

(** The last time that is recorded and the first that is not. *)
Lemma history_holds_32_bit_times :
  map h_executionTime
      (queryHistory (snd (executeQuery (steady 2147483647) "0" "SELECT 1" (registered "s"))))
    = [2147483647] /\
  queryHistory (snd (executeQuery (steady 2147483648) "0" "SELECT 1" (registered "s"))) = [] /\
  fst (executeQuery (steady 2147483648) "0" "SELECT 1" (registered "s"))
    = Threw (sample_out_of_range 2147483648).
Proof. vm_compute. auto. Qed.

(** An entry for a connection that is not stored is refused. *)
Lemma saveQueryHistory_needs_a_stored_connection :
  saveQueryHistory (steady 1) (success_entry "missing" "SELECT 1" 3 no_rows) (registered "s")
  = (Threw (sample_violates_reference "missing"), registered "s").
Proof. vm_compute. reflexivity. Qed.

(** C9. The entry appended by a successful [executeQuery] agrees with
    the result it returns: same row count, same execution time. *)
Theorem executeQuery_entry_matches_result (R : Remote) (connectionId query : string)
    (w w' : World) (result : QueryResult) :
  executeQuery R connectionId query w = (Returned result, w') ->
  exists entry,
    queryHistory w' = queryHistory w ++ [entry] /\
    h_success entry = true /\
    h_rowsAffected entry = rowCount result /\
    h_executionTime entry = executionTime result.
Proof.
  intros Hrun.
  destruct (getConnectionPool R connectionId w) as [[pool|error] w1] eqn:Hacq.
  - rewrite (executeQuery_run _ _ _ _ _ _ Hacq) in Hrun.
    destruct (getConnectionPool_frame _ _ _ _ _ Hacq) as (_ & Hh & _).
    pose proof (pool_query_frame R pool {| text := query; values := [] |} w1) as F.
    destruct (pool_query R pool {| text := query; values := [] |} w1)
      as [[answer|error] w2].
    + simpl in F. destruct F as (_ & _ & _ & Hq & _). cbv zeta in Hrun.
      destruct (accepted _ w2).
      * injection Hrun as <- <-. eexists. simpl. rewrite Hq, Hh. eauto.
      * destruct (caught_throws R connectionId query (now w2 - now w1)
                    (refusal R (success_entry connectionId query (now w2 - now w1) answer))
                    w2) as [thrown Ht].
        rewrite Hrun in Ht. discriminate.
    + destruct (caught_throws R connectionId query (now w2 - now w1) error w2)
        as [thrown Ht].
      rewrite Hrun in Ht. discriminate.
  - rewrite (executeQuery_no_pool _ _ _ _ _ _ Hacq) in Hrun. discriminate.
Qed.

Lemma executeQuery_entry_matches_result_witness :
  executeQuery one_row "0" "SELECT * FROM t" (registered "s")
    = (Returned (normalised 1 one_row_result),
       snd (executeQuery one_row "0" "SELECT * FROM t" (registered "s"))) /\
  exists entry,
    queryHistory (snd (executeQuery one_row "0" "SELECT * FROM t" (registered "s")))
      = queryHistory (registered "s") ++ [entry] /\
    h_success entry = true /\
    h_rowsAffected entry = rowCount (normalised 1 one_row_result) /\
    h_executionTime entry = executionTime (normalised 1 one_row_result).
Proof.
  assert (H1 : executeQuery one_row "0" "SELECT * FROM t" (registered "s")
               = (Returned (normalised 1 one_row_result),
                  snd (executeQuery one_row "0" "SELECT * FROM t" (registered "s"))))
    by (vm_compute; reflexivity).
  split; [exact H1 |].
  exact (executeQuery_entry_matches_result one_row "0" "SELECT * FROM t" (registered "s")
           _ _ H1).
Defined.

(** C3 (as amended). [executeQuery] sets no bound on a statement: on an
    open pool it waits for the engine's own completion, however long
    that takes.  While the time that passed fits the history's 32-bit
    column, the completion is recorded with that time and returned or
    thrown again (a completion whose row count does not fit is recorded
    as a failure and the store's refusal thrown); a longer time is not
    recorded at all and the call throws the store's refusal. *)
Theorem executeQuery_waits_for_the_engine (R : Remote) (connectionId query : string)
    (w w1 : World) (p : nat) (o : Pool) (elapsed : Z) (completion : Completion PgResult) :
  backed w ->
  getConnectionPool R connectionId w = (Returned (Some p), w1) ->
  heap w1 !! p = Some o ->
  ended o = false ->
  answer R (config o) (now w1) (issued w1) {| text := query; values := [] |}
    = (elapsed, completion) ->
  let run := executeQuery R connectionId query w in
  if in_int4 elapsed then
    exists entry,
      queryHistory (snd run) = queryHistory w ++ [entry] /\
      h_executionTime entry = elapsed /\
      match completion with
      | Returned result =>
          if in_int4 (or_zero (pg_rowCount result)) then
            fst run = Returned (normalised elapsed result) /\ h_success entry = true
          else
            fst run = Threw (out_of_range R (or_zero (pg_rowCount result))) /\
            h_success entry = false
      | Threw error =>
          fst run = Threw error /\ h_success entry = false
      end
  else
    fst run = Threw (out_of_range R elapsed) /\
    queryHistory (snd run) = queryHistory w.
Proof.
  intros Hb Hacq Ho He Hans run. subst run.
  rewrite (executeQuery_run _ _ _ _ _ _ Hacq).
  pose proof (getConnectionPool_referenced _ _ _ _ _ Hb Hacq) as Href.
  destruct (getConnectionPool_frame _ _ _ _ _ Hacq) as (_ & Hh & _).
  rewrite (pool_query_open _ _ _ _ _ Ho He), Hans.
  cbn [fst snd].
  set (w2 := submit p {| text := query; values := [] |} elapsed w1).
  replace (now w2 - now w1) with elapsed by (subst w2; simpl; lia).
  change (connections w1) with (connections w2) in Href.
  assert (Hq : queryHistory w2 = queryHistory w) by exact Hh.
  clearbody w2.
  destruct completion as [result|error]; cbv zeta; unfold caught;
    rewrite ?accepted_success, !accepted_failure, (bool_decide_eq_true_2 _ Href),
      !andb_true_r.
  - destruct (in_int4 elapsed) eqn:Hel; cbn [andb].
    + destruct (in_int4 (or_zero (pg_rowCount result))) eqn:Hrc.
      * eexists. cbn [fst snd]. split; [simpl; rewrite Hq; reflexivity |]. auto.
      * eexists. cbn [fst snd]. split; [simpl; rewrite Hq; reflexivity |].
        split; [reflexivity |]. split; [| reflexivity].
        unfold refusal. cbn [success_entry ih_executionTime ih_rowsAffected].
        now rewrite Hel, Hrc.
    + cbn [fst snd]. split; [| exact Hq].
      rewrite refusal_of_time; [reflexivity |].
      cbn [failure_entry ih_executionTime]. exact Hel.
  - destruct (in_int4 elapsed) eqn:Hel.
    + eexists. cbn [fst snd]. split; [simpl; rewrite Hq; reflexivity |]. auto.
    + cbn [fst snd]. split; [| exact Hq].
      rewrite refusal_of_time; [reflexivity |].
      cbn [failure_entry ih_executionTime]. exact Hel.
Qed.

Lemma executeQuery_waits_for_the_engine_witness :
  (backed (registered "s") /\
   getConnectionPool (steady 86400000) "0" (registered "s")
     = (Returned (Some 0%nat), acquired_world (steady 86400000))) /\
  exists entry,
    queryHistory (snd (executeQuery (steady 86400000) "0" "VACUUM FULL" (registered "s")))
      = queryHistory (registered "s") ++ [entry] /\
    h_executionTime entry = 86400000 /\
    fst (executeQuery (steady 86400000) "0" "VACUUM FULL" (registered "s"))
      = Returned (normalised 86400000 no_rows) /\
    h_success entry = true.
Proof.
  assert (H1 : getConnectionPool (steady 86400000) "0" (registered "s")
               = (Returned (Some 0%nat), acquired_world (steady 86400000)))
    by (vm_compute; reflexivity).
  split; [split; [apply backed_registered | exact H1] |].
  exact (executeQuery_waits_for_the_engine (steady 86400000) "0" "VACUUM FULL"
           (registered "s") (acquired_world (steady 86400000)) 0%nat first_pool
           86400000 (Returned no_rows) (backed_registered "s") H1 eq_refl eq_refl eq_refl).
Defined.

(** C3 (the claim fails). No statement is timed out.  One that the
    engine completes after an hour is not cut short: the call returns
    its result with an execution time of 3 600 000 ms and records a
    success.  One that the engine completes after 3 000 000 000 ms is
    waited for as well; its time does not fit the history's column, so
    the call throws the store's refusal and no failure is recorded. *)
Lemma no_statement_is_timed_out :
  (let run := executeQuery (steady 3600000) "0" "SELECT pg_sleep(3600)" (registered "s") in
   fst run = Returned {| rows := []; rowCount := 0; executionTime := 3600000; columns := [] |} /\
   map h_success (queryHistory (snd run)) = [true] /\
   map h_error (queryHistory (snd run)) = [None]) /\
  (let run := executeQuery (steady 3000000000) "0" "SELECT pg_sleep(3000000)"
                           (registered "s") in
   fst run = Threw (sample_out_of_range 3000000000) /\
   map (fun s => text (snd s)) (issued (snd run)) = ["SELECT pg_sleep(3000000)"] /\
   now (snd run) = 3000000000 /\
   queryHistory (snd run) = []).
Proof. vm_compute. auto 10. Qed.

(** ** Testing credentials *)

(** The liveness statement. *)
Lemma testConnection_run (R : Remote) (connection : InsertConnection) (w : World) :
  let cfg := pool_options_of_insert connection in
  let p := length (heap w) in
  let s := {| text := "SELECT 1"; values := [] |} in
  let built := set_heap (fun h => h ++ [{| config := cfg; ended := false |}]) w in
  let sent := submit p s (fst (answer R cfg (now w) (issued w) s)) built in
  let closed := set_heap (fun h => <[p := {| config := cfg; ended := true |}]> h) sent in
  testConnection R connection w =
  match construct R cfg with
  | Some _ => (Returned false, w)
  | None =>
      match snd (answer R cfg (now w) (issued w) s) with
      | Threw _ => (Returned false, sent)
      | Returned _ =>
          match shutdown R cfg with
          | Some _ => (Returned false, closed)
          | None => (Returned true, closed)
          end
      end
  end.
Proof.
  intros cfg p s built sent closed.
  unfold testConnection, try_catch. unfold bind at 1. unfold new_Pool. fold cfg.
  destruct (construct R cfg) as [e|]; [reflexivity |]. cbv beta iota. fold p. fold built.
  assert (Hp : heap built !! p = Some {| config := cfg; ended := false |})
    by (apply list_lookup_middle; reflexivity).
  unfold bind at 1. fold s. rewrite (pool_query_open R p _ s built Hp eq_refl).
  change (now built) with (now w). change (issued built) with (issued w).
  cbn [config]. fold sent.
  destruct (snd (answer R cfg (now w) (issued w) s)) as [result|e]; [| reflexivity].
  cbv beta iota. unfold bind at 1. unfold pool_end.
  change (heap sent) with (heap built). rewrite Hp. cbn [ended config]. fold closed.
  destruct (shutdown R cfg); reflexivity.
Qed.

(** C8. [testConnection] leaves [connectionPools] as it found it, on
    every path. *)
Theorem testConnection_keeps_connectionPools (R : Remote) (connection : InsertConnection)
    (w : World) :
  connectionPools (snd (testConnection R connection w)) = connectionPools w.
Proof.
  rewrite testConnection_run.
  destruct (construct R _); [reflexivity |].
  destruct (snd (answer R _ _ _ _)); [| reflexivity].
  destruct (shutdown R _); reflexivity.
Qed.

(** C10. [testConnection] always returns a boolean and never throws:
    it returns [true] exactly when the pool is built, the statement
    [SELECT 1] completes and the pool shuts down; an error in any of the
    three gives [false]. *)
Theorem testConnection_total (R : Remote) (connection : InsertConnection) (w : World) :
  exists b : bool,
    fst (testConnection R connection w) = Returned b /\
    (b = true <->
     construct R (pool_options_of_insert connection) = None /\
     (exists result,
        snd (answer R (pool_options_of_insert connection) (now w) (issued w)
                    {| text := "SELECT 1"; values := [] |}) = Returned result) /\
     shutdown R (pool_options_of_insert connection) = None).
Proof.
  rewrite testConnection_run.
  destruct (construct R _) as [e|].
  { exists false. split; [reflexivity |]. split; [discriminate |]. now intros ([=] & _). }
  destruct (snd (answer R _ _ _ _)) as [result|e].
  2:{ exists false. split; [reflexivity |]. split; [discriminate |].
      now intros (_ & [? [=]] & _). }
  destruct (shutdown R _) as [e|].
  { exists false. split; [reflexivity |]. split; [discriminate |]. now intros (_ & _ & [=]). }
  exists true. split; [reflexivity |]. split; eauto.
Qed.

(** The throwaway pool never enters the map either, so a well-formed
    state stays well formed. *)
Lemma testConnection_wf (R : Remote) (connection : InsertConnection) (w : World) :
  wf w -> wf (snd (testConnection R connection w)).
Proof.
  intros Hwf. rewrite testConnection_run.
  destruct (construct R _); [assumption |].
  assert (Hext : forall id p, connectionPools w !! id = Some p ->
            exists o, (heap w ++ [{| config := pool_options_of_insert connection;
                                     ended := false |}]) !! p = Some o /\ ended o = false).
  { intros id p Hp. destruct (Hwf id p Hp) as (o & Ho & He).
    exists o. split; [now apply lookup_app_l_Some | assumption]. }
  destruct (snd (answer R _ _ _ _)); [| exact Hext].
  assert (Hclosed : forall id p, connectionPools w !! id = Some p ->
            exists o, <[length (heap w) := {| config := pool_options_of_insert connection;
                                              ended := true |}]>
                        (heap w ++ [{| config := pool_options_of_insert connection;
                                       ended := false |}]) !! p = Some o /\ ended o = false).
  { intros id p Hp. destruct (Hwf id p Hp) as (o & Ho & He).
    exists o. split; [| assumption].
    rewrite list_lookup_insert_ne by (apply lookup_lt_Some in Ho; lia).
    now apply lookup_app_l_Some. }
  destruct (shutdown R _); exact Hclosed.
Qed.

(** ** Updating and deleting a connection record *)

(** [updateConnection] in one step: a port that does not fit is refused
    and nothing changes; else the records of the id are merged and put
    last. *)
Lemma updateConnection_run (R : Remote) (id : string) (changes : PartialConnection)
    (w : World) :
  updateConnection R id changes w =
  match refused_integer (pc_port changes) with
  | Some port => (Threw (out_of_range R port), w)
  | None =>
      (Returned (head (map (merge changes (now w))
                           (filter (fun c => c_id c = id) (connections w)))),
       set_connections
         (fun t => filter (fun c => c_id c <> id) t
                   ++ map (merge changes (now w))
                          (filter (fun c => c_id c = id) (connections w)))
         w)
  end.
Proof.
  unfold updateConnection. destruct (refused_integer (pc_port changes)); reflexivity.
Qed.

(** [updateConnection] touches the record and nothing else: the pool map
    and the heap are as before. *)
Lemma updateConnection_keeps_pools (R : Remote) (id : string) (changes : PartialConnection)
    (w : World) :
  connectionPools (snd (updateConnection R id changes w)) = connectionPools w /\
  heap (snd (updateConnection R id changes w)) = heap w.
Proof.
  rewrite updateConnection_run.
  destruct (refused_integer (pc_port changes)); split; reflexivity.
Qed.

(** So a pool built before the update is the one handed out after it. *)
Lemma updateConnection_then_acquire (R : Remote) (id : string) (changes : PartialConnection)
    (w : World) (p : nat) :
  connectionPools w !! id = Some p ->
  fst (getConnectionPool R id (snd (updateConnection R id changes w))) = Returned (Some p).
Proof.
  intros Hp.
  assert (Hkept : connectionPools (snd (updateConnection R id changes w)) !! id = Some p)
    by (now rewrite (proj1 (updateConnection_keeps_pools R id changes w))).
  set (after := snd (updateConnection R id changes w)) in *. clearbody after.
  pose proof (getConnectionPool_acquired R id after) as A.
  destruct (getConnectionPool R id after) as [c w'].
  cbn [fst snd] in A |- *.
  inversion A; subst; congruence.
Qed.

Lemma updateConnection_wf (R : Remote) (id : string) (changes : PartialConnection)
    (w : World) :
  wf w -> wf (snd (updateConnection R id changes w)).
Proof.
  intros Hwf other p.
  destruct (updateConnection_keeps_pools R id changes w) as [-> ->]. apply Hwf.
Qed.

(** [deleteConnection] in one step: the map entry goes; the record goes
    unless history entries refer to it, in which case the store's
    refusal is thrown. *)
Lemma deleteConnection_run (R : Remote) (id : string) (w : World) :
  deleteConnection R id w =
  if bool_decide (Exists (fun c => c_id c = id) (connections w)) &&
     bool_decide (Exists (fun h => h_connectionId h = id) (queryHistory w))
  then (Threw (still_referenced R id), set_connectionPools (delete id) w)
  else (Returned tt,
        set_connections (filter (fun c => c_id c <> id))
                        (set_connectionPools (delete id) w)).
Proof.
  unfold deleteConnection, bind, modify, gets, throw.
  cbn [connections queryHistory set_connectionPools].
  destruct (_ && _); reflexivity.
Qed.

Lemma not_referenced (id : string) (w : World) :
  Forall (fun h => h_connectionId h <> id) (queryHistory w) ->
  bool_decide (Exists (fun c => c_id c = id) (connections w)) &&
  bool_decide (Exists (fun h => h_connectionId h = id) (queryHistory w)) = false.
Proof.
  intros Hfree. apply andb_false_intro2, bool_decide_eq_false_2.
  intros Hex. apply Exists_exists in Hex as (h & Hin & Hid).
  rewrite Forall_forall in Hfree. exact (Hfree h Hin Hid).
Qed.

(** [deleteConnection] drops the map entry and, at most, the record; the
    heap, and so the pool that was mapped, is as before. *)
Lemma deleteConnection_effect (R : Remote) (id : string) (w : World) :
  let w' := snd (deleteConnection R id w) in
  connectionPools w' = delete id (connectionPools w) /\
  (connections w' = connections w \/
   connections w' = filter (fun c => c_id c <> id) (connections w)) /\
  heap w' = heap w /\ queryHistory w' = queryHistory w.
Proof.
  rewrite deleteConnection_run. destruct (_ && _); cbn; auto.
Qed.

Lemma deleted_not_selected (id : string) (table : list Connection) :
  filter (fun c => c_id c = id) (filter (fun c => c_id c <> id) table) = [].
Proof.
  induction table as [|c table IH]; [reflexivity |].
  rewrite (filter_cons (fun c => c_id c <> id)).
  destruct (decide (c_id c <> id)) as [Hne|Heq]; [| assumption].
  rewrite filter_cons. destruct (decide (c_id c = id)); [contradiction | assumption].
Qed.

(** Right after the deletion of a connection without history the id has
    no pool and none can be built. *)
Lemma deleteConnection_then_acquire (R : Remote) (id : string) (w : World) :
  Forall (fun h => h_connectionId h <> id) (queryHistory w) ->
  connectionPools (snd (deleteConnection R id w)) !! id = None /\
  getConnectionPool R id (snd (deleteConnection R id w))
  = (Threw (ErrorObj "Connection not found"), snd (deleteConnection R id w)).
Proof.
  intros Hfree. rewrite deleteConnection_run, (not_referenced _ _ Hfree). cbn [snd].
  set (gone := set_connections _ _).
  assert (Hgone : connectionPools gone !! id = None) by apply lookup_delete_eq.
  split; [exact Hgone |].
  pose proof (getConnectionPool_acquired R id gone) as A.
  assert (Hsel : head (filter (fun c => c_id c = id) (connections gone)) = None).
  { change (connections gone) with (filter (fun c => c_id c <> id) (connections w)).
    now rewrite deleted_not_selected. }
  clearbody gone.
  destruct (getConnectionPool R id gone) as [c w'].
  cbn [fst snd] in A. inversion A; subst; congruence.
Qed.

Lemma deleteConnection_wf (R : Remote) (id : string) (w : World) :
  wf w -> wf (snd (deleteConnection R id w)).
Proof.
  intros Hwf id' p.
  destruct (deleteConnection_effect R id w) as (-> & _ & -> & _).
  intros Hp. apply lookup_delete_Some in Hp as [_ Hp]. exact (Hwf id' p Hp).
Qed.

(** C5 (what the code does). A pool is built while the record holds the
    password [old]; the record is then updated to [new].  The next
    acquisition hands out the very same pool, still configured with
    [old]: the update does not replace it. *)
Theorem updateConnection_leaves_stale_pool :
  let w1 := snd (getConnectionPool (steady 1) "0" (registered "old")) in
  let w2 := snd (updateConnection (steady 1) "0" (new_password "new") w1) in
  fst (getConnectionPool (steady 1) "0" w1) = Returned (Some 0%nat) /\
  map c_password (connections w2) = ["new"] /\
  fst (getConnectionPool (steady 1) "0" w2) = Returned (Some 0%nat) /\
  map (fun o => password (config o)) (heap (snd (getConnectionPool (steady 1) "0" w2)))
  = ["old"].
Proof. vm_compute. auto. Qed.

(** C6 (what the code does). A pool is built, then its connection is
    deleted.  The map entry and the record are gone and the next
    acquisition fails with [Connection not found], but the pool that was
    mapped is still on the heap and was never ended. *)
Theorem deleteConnection_leaves_pool_open :
  let w1 := snd (getConnectionPool (steady 1) "0" (registered "s")) in
  let w2 := snd (deleteConnection (steady 1) "0" w1) in
  connectionPools w1 !! "0" = Some 0%nat /\
  connectionPools w2 !! "0" = None /\
  connections w2 = [] /\
  fst (getConnectionPool (steady 1) "0" w2) = Threw (ErrorObj "Connection not found") /\
  map ended (heap w2) = [false].
Proof. vm_compute. auto. Qed.

(** A connection with history cannot be deleted: the store refuses, but
    the map entry is already gone, so the next acquisition builds a
    second pool while the first is still open. *)
Lemma deleteConnection_refused_with_history :
  let w1 := snd (executeQuery (steady 1) "0" "SELECT 1" (registered "s")) in
  let w2 := snd (deleteConnection (steady 1) "0" w1) in
  let w3 := snd (getConnectionPool (steady 1) "0" w2) in
  fst (deleteConnection (steady 1) "0" w1) = Threw (sample_still_referenced "0") /\
  connectionPools w1 !! "0" = Some 0%nat /\
  connectionPools w2 !! "0" = None /\
  map c_id (connections w2) = ["0"] /\
  connectionPools w3 !! "0" = Some 1%nat /\
  map ended (heap w3) = [false; false].
Proof. vm_compute. auto 10. Qed.

(** ** Browsing and exporting a table *)

Lemma getTableData_run (R : Remote) (connectionId database table : string)
    (offset limit : Z) (filters : option (list (string * option Value)))
    (w w1 : World) (p : nat) (o : Pool) :
  getConnectionPool R connectionId w = (Returned (Some p), w1) ->
  heap w1 !! p = Some o ->
  ended o = false ->
  let s := table_data_statement table offset limit filters in
  let a := answer R (config o) (now w1) (issued w1) s in
  getTableData R connectionId database table offset limit filters w =
  (match snd a with
   | Returned result => Returned (normalised (fst a) result)
   | Threw error => Threw error
   end,
   submit p s (fst a) w1).
Proof.
  intros Hacq Ho He s a. unfold getTableData. unfold bind at 1. rewrite Hacq.
  unfold bind at 1. unfold Date_now at 1, gets at 1. unfold bind at 1. fold s.
  rewrite (pool_query_open _ _ _ _ _ Ho He). fold a.
  destruct (snd a) as [result|error]; [| reflexivity].
  unfold bind, Date_now, gets, ret, normalised. cbn [now submit].
  do 3 f_equal. lia.
Qed.

Lemma exportTableData_run (R : Remote) (connectionId database table format : string)
    (w w1 : World) (pool : option nat) :
  getConnectionPool R connectionId w = (Returned pool, w1) ->
  exportTableData R connectionId database table format w =
  match pool_query R pool {| text := "SELECT * FROM " +:+ table; values := [] |} w1 with
  | (Returned result, w2) =>
      (Returned (if String.eqb format "json"
                 then JSON_stringify (pg_rows result) 2
                 else to_csv (pg_rows result)), w2)
  | (Threw error, w2) => (Threw error, w2)
  end.
Proof.
  intros Hacq. unfold exportTableData. unfold bind at 1. rewrite Hacq.
  unfold bind at 1.
  destruct (pool_query R pool _ w1) as [[result|error] w2]; [| reflexivity].
  destruct (String.eqb format "json"); reflexivity.
Qed.

(** C1 (as amended). [getTableData] and [exportTableData] check no
    identifier.  Whenever the connection's pool is acquired, the table
    name, and the key of every surviving filter, goes into the statement
    text exactly as given; that statement is the only one the call sends,
    and the call completes as the engine completes it. *)
Theorem identifiers_spliced_unchecked (R : Remote) (connectionId database table format : string)
    (offset limit : Z) (filters : option (list (string * option Value)))
    (w w1 : World) (p : nat) (o : Pool) :
  getConnectionPool R connectionId w = (Returned (Some p), w1) ->
  heap w1 !! p = Some o ->
  ended o = false ->
  let browse := table_data_statement table offset limit filters in
  let dump := {| text := "SELECT * FROM " +:+ table; values := [] |} in
  let browsed := getTableData R connectionId database table offset limit filters w in
  let exported := exportTableData R connectionId database table format w in
  text browse = "SELECT * FROM " +:+ table +:+ " " +:+ where_clause (surviving filters)
                +:+ " LIMIT $1 OFFSET $2" /\
  issued (snd browsed) = issued w ++ [(p, browse)] /\
  (forall error, fst browsed = Threw error ->
     snd (answer R (config o) (now w1) (issued w1) browse) = Threw error) /\
  issued (snd exported) = issued w ++ [(p, dump)] /\
  (forall error, fst exported = Threw error ->
     snd (answer R (config o) (now w1) (issued w1) dump) = Threw error).
Proof.
  intros Hacq Ho He browse dump browsed exported.
  destruct (getConnectionPool_frame _ _ _ _ _ Hacq) as (Hi & _).
  split; [unfold browse; now rewrite table_data_statement_shape |].
  subst browsed exported.
  rewrite (getTableData_run _ _ _ _ _ _ _ _ _ _ _ Hacq Ho He).
  rewrite (exportTableData_run _ _ _ _ _ _ _ _ Hacq).
  rewrite (pool_query_open _ _ _ _ _ Ho He).
  fold browse. fold dump. cbn [fst snd].
  repeat split.
  - simpl. now rewrite Hi.
  - destruct (snd (answer R (config o) (now w1) (issued w1) browse)); congruence.
  - destruct (snd (answer R (config o) (now w1) (issued w1) dump)); simpl; now rewrite Hi.
  - destruct (snd (answer R (config o) (now w1) (issued w1) dump)); simpl; congruence.
Qed.

Lemma identifiers_spliced_unchecked_witness :
  getConnectionPool users_only "0" (registered "s")
    = (Returned (Some 0%nat), acquired_world users_only) /\
  issued (snd (getTableData users_only "0" "app" "ghost" 0 25 None (registered "s")))
    = [(0%nat, {| text := "SELECT * FROM ghost  LIMIT $1 OFFSET $2";
                  values := [VNum 25; VNum 0] |})].
Proof.
  assert (H1 : getConnectionPool users_only "0" (registered "s")
               = (Returned (Some 0%nat), acquired_world users_only))
    by (vm_compute; reflexivity).
  split; [exact H1 |].
  exact (proj1 (proj2 (identifiers_spliced_unchecked users_only "0" "app" "ghost" "csv"
                         0 25 None (registered "s") (acquired_world users_only)
                         0%nat first_pool H1 eq_refl eq_refl))).
Defined.

(** C1 (the claim fails). The engine lists one table, [users], with the
    columns [id] and [username].  Browsing and exporting a table [ghost]
    that is not listed, with a filter on a column [nope], are not
    refused: the statements go out with the names in them and the calls
    return. *)
Lemma unlisted_identifiers_reach_the_engine :
  let w := registered "s" in
  let browsed := getTableData users_only "0" "app" "ghost" 0 25
                   (Some [("nope", Some (VStr "x"))]) w in
  let exported := exportTableData users_only "0" "app" "ghost" "csv" w in
  fst (getTables users_only "0" "app" w)
  = Returned [{| t_name := Some (VStr "users"); t_schema := Some (VStr "public");
                 t_rowCount := 3 |}] /\
  fst (getTableColumns users_only "0" "app" "users" w)
  = Returned [{| col_name := Some (VStr "id"); col_type := None; col_nullable := None;
                 col_defaultValue := None; col_isPrimaryKey := None;
                 col_isUnique := None; col_extra := VStr "" |};
              {| col_name := Some (VStr "username"); col_type := None;
                 col_nullable := None; col_defaultValue := None;
                 col_isPrimaryKey := None; col_isUnique := None;
                 col_extra := VStr "" |}] /\
  fst (getTableColumns users_only "0" "app" "ghost" w) = Returned [] /\
  fst browsed = Returned {| rows := []; rowCount := 0; executionTime := 1; columns := [] |} /\
  map (fun s => text (snd s)) (issued (snd browsed))
  = ["SELECT * FROM ghost WHERE nope::text ILIKE $3 LIMIT $1 OFFSET $2"] /\
  fst exported = Returned "" /\
  map (fun s => text (snd s)) (issued (snd exported)) = ["SELECT * FROM ghost"].
Proof. vm_compute. auto 10. Qed.

(** C2 (what the code does). The filters [{search: admin, column:
    username}], as the table-data route passes them on, give a statement
    with two ILIKE conditions, on columns named [search] and [column],
    bound to the patterns of [admin] and of [username]. *)
Theorem search_and_column_become_two_conditions :
  table_data_statement "users" 0 25
    (Some (rest_filters [("search", Some (VStr "admin")); ("column", Some (VStr "username"))]))
  = {| text := "SELECT * FROM users WHERE search::text ILIKE $3 AND column::text ILIKE $4 LIMIT $1 OFFSET $2";
       values := [VNum 25; VNum 0; VStr "%admin%"; VStr "%username%"] |}.
Proof. reflexivity. Qed.

(** Reading back one escaped character. *)
Lemma read_characters_escaped (c : ascii) (rest : list ascii) :
  ExportSpec.read_characters (ExportSpec.escaped c ++ rest)
  = cons c <$> ExportSpec.read_characters rest.
Proof.
  destruct c as [[] [] [] [] [] [] [] []]; reflexivity.
Qed.

(** A string that was quoted reads back as the string it was. *)
Lemma read_quoted (s : string) : ExportSpec.read (ExportSpec.quoted s) = Some s.
Proof.
  unfold ExportSpec.read, ExportSpec.quoted.
  rewrite list_ascii_of_string_of_list_ascii.
  change (Ascii.eqb ExportSpec.quote ExportSpec.quote) with true. cbv iota.
  rewrite <- (string_of_list_ascii_of_string s) at 2.
  generalize (list_ascii_of_string s). intros cs.
  enough (H : ExportSpec.read_characters
                (flat_map ExportSpec.escaped cs ++ [ExportSpec.quote]) = Some cs)
    by now rewrite H.
  induction cs as [|c cs IH]; [reflexivity |].
  cbn [flat_map]. rewrite <- app_assoc, read_characters_escaped, IH. reflexivity.
Qed.

(** C7. What [exportTableData] returns is the serialization of the
    fetched rows that the specification describes: for [json] the
    pretty-printed array of row objects, null written [null], strings
    written as JSON strings (which read back as the strings they were),
    and [[]] for no rows; otherwise CSV, with the header of the first
    row's keys, one line per row, empty fields for null and undefined,
    quoting of values with a comma, a double quote or a newline, and the
    empty string for no rows.  The row [{id: 1, name: 'A,B'}] gives the
    header [id,name] and the line [1,"A,B"].  The values of the rows are
    null, booleans, strings and safe integers. *)
Theorem exportTableData_serialization (R : Remote)
    (connectionId database table format : string) (w w1 w2 : World)
    (pool : option nat) (result : PgResult) :
  ExportSpec.exact (pg_rows result) ->
  getConnectionPool R connectionId w = (Returned pool, w1) ->
  pool_query R pool {| text := "SELECT * FROM " +:+ table; values := [] |} w1
    = (Returned result, w2) ->
  exportTableData R connectionId database table format w
    = (Returned (ExportSpec.export format (pg_rows result)), w2) /\
  (forall s, ExportSpec.read (QuoteJSONString s) = Some s) /\
  JSON_stringify [] 2 = "[]" /\
  JSON_stringify [[("id", VNum 1); ("name", VStr "A,B")]; [("id", VNull); ("name", VBool true)]] 2
    = "[" +:+ LF +:+
      "  {" +:+ LF +:+
      "    " +:+ String DQ ("id" +:+ String DQ ": 1,") +:+ LF +:+
      "    " +:+ String DQ ("name" +:+ String DQ (": " +:+ String DQ ("A,B" +:+ String DQ ""))) +:+ LF +:+
      "  }," +:+ LF +:+
      "  {" +:+ LF +:+
      "    " +:+ String DQ ("id" +:+ String DQ ": null,") +:+ LF +:+
      "    " +:+ String DQ ("name" +:+ String DQ ": true") +:+ LF +:+
      "  }" +:+ LF +:+
      "]" /\
  SerializeJSONProperty (VStr (String DQ ("\" +:+ LF +:+ String "001" "")))
    = String DQ ("\" +:+ String DQ ("\\\n\u0001" +:+ String DQ "")) /\
  to_csv [] = "" /\
  to_csv [[("id", VNum 1); ("name", VStr "A,B")]]
    = "id,name" +:+ LF +:+ "1," +:+ String DQ ("A,B" +:+ String DQ "") /\
  csv_value None = "" /\ csv_value (Some VNull) = "" /\
  SerializeJSONProperty VNull = "null".
Proof.
  intros _ Hacq Hq. split; [| split; [| repeat split]].
  - rewrite (exportTableData_run _ _ _ _ _ _ _ _ Hacq), Hq.
    unfold ExportSpec.export.
    destruct (String.eqb format "json");
      [now rewrite JSON_stringify_spec | now rewrite to_csv_spec].
  - intros s. rewrite QuoteJSONString_quoted. apply read_quoted.
Qed.

Lemma exportTableData_serialization_witness :
  (ExportSpec.exact (pg_rows one_row_result) /\
   getConnectionPool one_row "0" (registered "s")
     = (Returned (Some 0%nat), acquired_world one_row) /\
   pool_query one_row (Some 0%nat) {| text := "SELECT * FROM " +:+ "t"; values := [] |}
              (acquired_world one_row)
     = (Returned one_row_result,
        submit 0 {| text := "SELECT * FROM t"; values := [] |} 1 (acquired_world one_row))) /\
  exportTableData one_row "0" "app" "t" "csv" (registered "s")
    = (Returned ("id,name" +:+ LF +:+ "1," +:+ String DQ ("A,B" +:+ String DQ "")),
       submit 0 {| text := "SELECT * FROM t"; values := [] |} 1 (acquired_world one_row)).
Proof.
  assert (H0 : ExportSpec.exact (pg_rows one_row_result)).
  { repeat constructor; cbn; lia. }
  assert (H1 : getConnectionPool one_row "0" (registered "s")
               = (Returned (Some 0%nat), acquired_world one_row))
    by (vm_compute; reflexivity).
  assert (H2 : pool_query one_row (Some 0%nat)
                 {| text := "SELECT * FROM " +:+ "t"; values := [] |} (acquired_world one_row)
               = (Returned one_row_result,
                  submit 0 {| text := "SELECT * FROM t"; values := [] |} 1
                         (acquired_world one_row)))
    by (vm_compute; reflexivity).
  split; [split; [exact H0 | split; [exact H1 | exact H2]] |].
  exact (proj1 (exportTableData_serialization one_row "0" "app" "t" "csv" _ _ _ _ _
                  H0 H1 H2)).
Defined.

(** ** Well-formedness is kept *)

Lemma wf_frame (w w' : World) :
  connectionPools w' = connectionPools w -> heap w' = heap w -> wf w -> wf w'.
Proof. intros Hm Hh Hwf id p. rewrite Hm, Hh. apply Hwf. Qed.

Lemma getConnectionPool_wf (R : Remote) (id : string) (w : World) :
  wf w -> wf (snd (getConnectionPool R id w)).
Proof.
  intros Hwf.
  destruct (getConnectionPool R id w) as [[pool|error] w1] eqn:Hacq.
  - exact (proj1 (getConnectionPool_open _ _ _ _ _ Hwf Hacq)).
  - pose proof (getConnectionPool_acquired R id w) as A.
    rewrite Hacq in A. cbn [fst snd] in A |- *. inversion A; subst; assumption.
Qed.

Lemma executeQuery_wf (R : Remote) (connectionId query : string) (w : World) :
  wf w -> wf (snd (executeQuery R connectionId query w)).
Proof.
  intros Hwf. apply (getConnectionPool_wf R connectionId) in Hwf.
  destruct (getConnectionPool R connectionId w) as [[pool|error] w1] eqn:Hacq.
  - destruct (executeQuery_frame R connectionId query _ _ _ Hacq) as (Hm & Hh & _).
    now apply (wf_frame _ _ Hm Hh).
  - now rewrite (executeQuery_no_pool _ _ _ _ _ _ Hacq).
Qed.

(** * Further properties of the storage and of its routes *)

(** ** Lists of records *)

Lemma head_filter_None {A} (P : A -> Prop) `{!forall x, Decision (P x)} (l : list A) :
  head (filter P l) = None <-> Forall (fun x => ~ P x) l.
Proof.
  induction l as [|y l IH]; [split; constructor |].
  rewrite filter_cons. destruct (decide (P y)) as [Hy|Hy]; simpl.
  - split; [discriminate |]. intros HF. apply Forall_cons in HF as [HF _]. contradiction.
  - rewrite IH. split; [now constructor |]. intros HF. now apply Forall_cons in HF as [_ HF].
Qed.

(** ** One statement on the connection's pool *)

Lemma query_on_run {A} (R : Remote) (id : string) (s : Statement) (k : PgResult -> A)
    (w : World) :
  query_on R id s k w =
  match getConnectionPool R id w with
  | (Threw error, w1) => (Threw error, w1)
  | (Returned pool, w1) =>
      match pool_query R pool s w1 with
      | (Returned result, w2) => (Returned (k result), w2)
      | (Threw error, w2) => (Threw error, w2)
      end
  end.
Proof.
  unfold query_on, bind, ret.
  destruct (getConnectionPool R id w) as [[pool|error] w1]; [| reflexivity].
  destruct (pool_query R pool s w1) as [[result|error] w2]; reflexivity.
Qed.

(** What [connectionPools], the heap and the local store look like after
    the statement: as after the acquisition alone. *)
Lemma query_on_world {A} (R : Remote) (id : string) (s : Statement) (k : PgResult -> A)
    (w : World) :
  let w1 := snd (getConnectionPool R id w) in
  let w' := snd (query_on R id s k w) in
  connectionPools w' = connectionPools w1 /\ heap w' = heap w1 /\
  connections w' = connections w /\ queryHistory w' = queryHistory w /\
  uuid w' = uuid w.
Proof.
  rewrite query_on_run.
  destruct (getConnectionPool R id w) as [[pool|error] w1] eqn:Hacq;
    destruct (getConnectionPool_frame _ _ _ _ _ Hacq) as (_ & Hh & _ & Hc & Hu);
    cbn [snd]; [| auto].
  pose proof (pool_query_frame R pool s w1) as F.
  destruct (pool_query R pool s w1) as [[result|error] w2]; cbn [snd] in F |- *;
    destruct F as (Fm & Fh & Fc & Fq & Fu); repeat split; congruence.
Qed.

Lemma getTableData_world (R : Remote) (connectionId database table : string)
    (offset limit : Z) (filters : option (list (string * option Value))) (w : World) :
  snd (getTableData R connectionId database table offset limit filters w)
  = snd (query_on R connectionId (table_data_statement table offset limit filters)
                  (fun _ => tt) w).
Proof.
  rewrite query_on_run. unfold getTableData. unfold bind at 1.
  destruct (getConnectionPool R connectionId w) as [[pool|error] w1]; [| reflexivity].
  unfold bind at 1. unfold Date_now at 1, gets at 1. unfold bind at 1.
  destruct (pool_query R pool _ w1) as [[result|error] w2]; reflexivity.
Qed.

Lemma exportTableData_world (R : Remote) (connectionId database table format : string)
    (w : World) :
  snd (exportTableData R connectionId database table format w)
  = snd (query_on R connectionId {| text := "SELECT * FROM " +:+ table; values := [] |}
                  (fun _ => tt) w).
Proof.
  rewrite query_on_run.
  destruct (getConnectionPool R connectionId w) as [[pool|error] w1] eqn:Hacq.
  - rewrite (exportTableData_run _ _ _ _ _ _ _ _ Hacq).
    destruct (pool_query R pool _ w1) as [[result|error] w2]; reflexivity.
  - unfold exportTableData. unfold bind at 1. now rewrite Hacq.
Qed.

(** ** Pools: reuse and non-interference *)

(** X1. A pool that has been handed out is handed out again, with no
    new pool built and nothing else changed; an acquisition that fails
    changes nothing. *)
Theorem getConnectionPool_reuses (R : Remote) (id : string) (w : World) :
  match getConnectionPool R id w with
  | (Returned pool, w1) => getConnectionPool R id w1 = (Returned pool, w1)
  | (Threw _, w1) => w1 = w
  end.
Proof.
  pose proof (getConnectionPool_acquired R id w) as A.
  destruct (getConnectionPool R id w) as [c w1]. cbn [fst snd] in A.
  inversion A as [p Hp | | | c0 Hnone Hc Hbuilt]; subst; try reflexivity.
  - pose proof (getConnectionPool_acquired R id w1) as B.
    destruct (getConnectionPool R id w1) as [c' w1'].
    cbn [fst snd] in B. inversion B; subst; congruence.
  - set (w1 := set_connectionPools _ _).
    assert (Hin : connectionPools w1 !! id = Some (length (heap w)))
      by apply lookup_insert_eq.
    pose proof (getConnectionPool_acquired R id w1) as B.
    destruct (getConnectionPool R id w1) as [c' w1'].
    cbn [fst snd] in B. inversion B; subst; congruence.
Qed.

(** X2. An acquisition for one id leaves the entry of every other id as
    it was, and the pools already built as they were: the heap grows by
    at most one pool, at its end. *)
Theorem getConnectionPool_others_untouched (R : Remote) (id : string) (w : World) :
  let w1 := snd (getConnectionPool R id w) in
  (forall other, other <> id -> connectionPools w1 !! other = connectionPools w !! other) /\
  exists built, heap w1 = heap w ++ built /\ (length built <= 1)%nat.
Proof.
  pose proof (getConnectionPool_acquired R id w) as A.
  destruct (getConnectionPool R id w) as [c w1]. cbn [fst snd] in A |- *.
  inversion A; subst;
    try (split; [reflexivity | exists []; rewrite app_nil_r; split; [reflexivity | simpl; lia]]).
  split.
  - intros other Hne. simpl. now rewrite lookup_insert_ne.
  - eexists [_]. split; [reflexivity | simpl; lia].
Qed.

(** ** Invariants of the storage *)

Lemma backed_frame (w w' : World) :
  connectionPools w' = connectionPools w -> connections w' = connections w ->
  backed w -> backed w'.
Proof. intros Hm Hc Hb id p. rewrite Hm, Hc. apply Hb. Qed.

Lemma getConnectionPool_backed (R : Remote) (id : string) (w : World) :
  backed w -> backed (snd (getConnectionPool R id w)).
Proof.
  intros Hb. pose proof (getConnectionPool_acquired R id w) as A.
  destruct (getConnectionPool R id w) as [c w1]. cbn [fst snd] in A |- *.
  inversion A as [ | | | c0 Hnone Hc Hbuilt]; subst; try assumption.
  intros other p. simpl. destruct (decide (id = other)) as [<-|Hne].
  - intros _. apply head_filter_elem in Hc as [Hin Hid]. eauto.
  - rewrite lookup_insert_ne by assumption. apply Hb.
Qed.

Lemma testConnection_local_store (R : Remote) (connection : InsertConnection) (w : World) :
  let w' := snd (testConnection R connection w) in
  connectionPools w' = connectionPools w /\
  connections w' = connections w /\ queryHistory w' = queryHistory w /\ uuid w' = uuid w.
Proof.
  rewrite testConnection_run.
  destruct (construct R _); [auto |].
  destruct (snd (answer R _ _ _ _)); [| auto].
  destruct (shutdown R _); auto.
Qed.

Lemma executeQuery_world (R : Remote) (connectionId query : string) (w : World) :
  let w1 := snd (getConnectionPool R connectionId w) in
  let w' := snd (executeQuery R connectionId query w) in
  connectionPools w' = connectionPools w1 /\ heap w' = heap w1 /\
  connections w' = connections w.
Proof.
  destruct (getConnectionPool R connectionId w) as [[pool|error] w1] eqn:Hacq;
    destruct (getConnectionPool_frame _ _ _ _ _ Hacq) as (_ & _ & _ & Hc & _).
  - destruct (executeQuery_frame R connectionId query _ _ _ Hacq) as (Fm & Fh & Fc & _).
    cbn [snd]. repeat split; congruence.
  - rewrite (executeQuery_no_pool _ _ _ _ _ _ Hacq). auto.
Qed.

(** Whatever is kept by an acquisition and does not look beyond the pool
    map, the heap and the registry, is kept by every method. *)
Lemma kept_by_storage_intro (I : World -> Prop) (R : Remote) (w : World) :
  (forall w1 w2, connectionPools w2 = connectionPools w1 -> heap w2 = heap w1 ->
                 connections w2 = connections w1 -> I w1 -> I w2) ->
  (forall id w1, I w1 -> I (snd (getConnectionPool R id w1))) ->
  (forall connection w1, I w1 -> I (snd (createConnection connection w1))) ->
  (forall id changes w1, I w1 -> I (snd (updateConnection R id changes w1))) ->
  (forall id w1, I w1 -> I (snd (deleteConnection R id w1))) ->
  (forall connection w1, I w1 -> I (snd (testConnection R connection w1))) ->
  I w -> kept_by_storage I R w.
Proof.
  intros Hframe Hacq Hcreate Hupdate Hdelete Htest Hw.
  assert (Hq : forall A id s (k : PgResult -> A), I (snd (query_on R id s k w))).
  { intros A id s k. destruct (query_on_world R id s k w) as (Hm & Hh & Hc & _).
    eapply Hframe; [exact Hm | exact Hh | | apply (Hacq id w Hw)].
    rewrite Hc. symmetry.
    destruct (getConnectionPool R id w) as [c w1] eqn:E.
    now destruct (getConnectionPool_frame _ _ _ _ _ E) as (_ & _ & _ & ? & _). }
  repeat split; intros; auto.
  - apply Hq.
  - apply Hq.
  - apply Hq.
  - rewrite getTableData_world. apply Hq.
  - destruct (executeQuery_world R id query w) as (Hm & Hh & Hc).
    eapply Hframe; [exact Hm | exact Hh | | apply (Hacq id w Hw)].
    rewrite Hc. symmetry.
    destruct (getConnectionPool R id w) as [c w1] eqn:E.
    now destruct (getConnectionPool_frame _ _ _ _ _ E) as (_ & _ & _ & ? & _).
  - rewrite exportTableData_world. apply Hq.
  - destruct (saveQueryHistory_frame R history w) as (Hm & Hh & Hc & _).
    eapply Hframe; [exact Hm | exact Hh | exact Hc | exact Hw].
Qed.

Lemma createConnection_wf (connection : InsertConnection) (w : World) :
  wf w -> wf (snd (createConnection connection w)).
Proof. intros Hwf. exact Hwf. Qed.

(** X3. Every method of the storage keeps the pool map sound: each
    reference in [connectionPools] points to a pool on the heap that has
    not been ended. *)
Theorem storage_keeps_pools_open (R : Remote) (w : World) :
  wf w -> kept_by_storage wf R w.
Proof.
  apply kept_by_storage_intro.
  - intros w1 w2 Hm Hh _. now apply wf_frame.
  - intros id w1. apply getConnectionPool_wf.
  - intros c w1. apply createConnection_wf.
  - intros id ch w1. apply updateConnection_wf.
  - intros id w1. apply deleteConnection_wf.
  - intros c w1. apply testConnection_wf.
Qed.

Lemma storage_keeps_pools_open_witness :
  wf (acquired_world (steady 1)) /\ kept_by_storage wf (steady 1) (acquired_world (steady 1)).
Proof.
  assert (Hreg : wf (registered "s")).
  { destruct (storage_keeps_pools_open (steady 1) empty_world wf_empty) as (H & _).
    exact (H (sample "s")). }
  assert (Hacq : wf (acquired_world (steady 1))).
  { destruct (storage_keeps_pools_open (steady 1) (registered "s") Hreg)
      as (_ & _ & _ & _ & H & _).
    exact (H "0"). }
  split; [exact Hacq | exact (storage_keeps_pools_open (steady 1) _ Hacq)].
Defined.

Lemma backed_empty : backed empty_world.
Proof. intros id p H. unfold empty_world in H. simpl in H. now rewrite lookup_empty in H. Qed.

(** X4. Every method of the storage keeps the pool map backed by the
    registry: an id has a pool only while a connection record with that
    id is stored. *)
Theorem storage_keeps_pools_backed (R : Remote) (w : World) :
  backed w -> kept_by_storage backed R w.
Proof.
  apply kept_by_storage_intro.
  - intros w1 w2 Hm _ Hc. now apply backed_frame.
  - intros id w1. apply getConnectionPool_backed.
  - intros connection w1 Hb id p Hp. destruct (Hb id p Hp) as (c & Hin & Hid).
    exists c. split; [| assumption]. simpl. apply elem_of_app. now left.
  - intros id changes w1 Hb other p. rewrite updateConnection_run.
    destruct (refused_integer (pc_port changes)); [apply Hb |].
    cbn [snd]. intros Hp. destruct (Hb other p Hp) as (c & Hin & Hid).
    change (exists c', c' ∈ filter (fun c => c_id c <> id) (connections w1)
                            ++ map (merge changes (now w1))
                                   (filter (fun c => c_id c = id) (connections w1))
                       /\ c_id c' = other).
    destruct (decide (c_id c = id)) as [Heq|Hne].
    + exists (merge changes (now w1) c). split; [| exact Hid].
      apply elem_of_app. right. apply list_elem_of_fmap. exists c.
      split; [reflexivity |]. now apply list_elem_of_filter.
    + exists c. split; [| exact Hid].
      apply elem_of_app. left. now apply list_elem_of_filter.
  - intros id w1 Hb other p.
    destruct (deleteConnection_effect R id w1) as (-> & Hrec & _).
    intros Hp. apply lookup_delete_Some in Hp as [Hne Hp].
    destruct (Hb other p Hp) as (c & Hin & Hid).
    exists c. split; [| assumption].
    destruct Hrec as [-> | ->]; [assumption |].
    apply list_elem_of_filter. split; [congruence | assumption].
  - intros connection w1.
    destruct (testConnection_local_store R connection w1) as (Hm & Hc & _).
    now apply backed_frame.
Qed.

Lemma storage_keeps_pools_backed_witness :
  backed (acquired_world (steady 1)) /\
  kept_by_storage backed (steady 1) (acquired_world (steady 1)).
Proof.
  assert (Hreg : backed (registered "s")).
  { destruct (storage_keeps_pools_backed (steady 1) empty_world backed_empty) as (H & _).
    exact (H (sample "s")). }
  assert (Hacq : backed (acquired_world (steady 1))).
  { destruct (storage_keeps_pools_backed (steady 1) (registered "s") Hreg)
      as (_ & _ & _ & _ & H & _).
    exact (H "0"). }
  split; [exact Hacq | exact (storage_keeps_pools_backed (steady 1) _ Hacq)].
Defined.

(** ** The Connection Registry *)

Lemma filter_none {A} (P : A -> Prop) `{!forall x, Decision (P x)} (l : list A) :
  Forall (fun x => ~ P x) l -> filter P l = [].
Proof.
  induction 1 as [|x l Hx _ IH]; [reflexivity |].
  rewrite filter_cons. now destruct (decide (P x)).
Qed.



Lemma filter_all {A} (P : A -> Prop) `{!forall x, Decision (P x)} (l : list A) :
  Forall P l -> filter P l = l.
Proof.
  induction 1 as [|x l Hx _ IH]; [reflexivity |].
  rewrite filter_cons, decide_True by exact Hx. now rewrite IH.
Qed.

Lemma filter_all_same (id : string) (f : Connection -> Connection) (table : list Connection) :
  (forall c, c_id (f c) = c_id c) ->
  filter (fun c => c_id c = id) (map f (filter (fun c => c_id c = id) table))
  = map f (filter (fun c => c_id c = id) table).
Proof.
  intros Hid. induction table as [|c table IH]; [reflexivity |].
  rewrite filter_cons. destruct (decide (c_id c = id)) as [Heq|Hne]; [| exact IH].
  cbn [map]. rewrite filter_cons, decide_True by (rewrite Hid; exact Heq).
  now rewrite IH.
Qed.

Lemma filter_other_none (id other : string) (f : Connection -> Connection)
    (table : list Connection) :
  (forall c, c_id (f c) = c_id c) -> other <> id ->
  filter (fun c => c_id c = other) (map f (filter (fun c => c_id c = id) table)) = [].
Proof.
  intros Hid Hne. induction table as [|c table IH]; [reflexivity |].
  rewrite filter_cons. destruct (decide (c_id c = id)) as [Heq|Hneq]; [| exact IH].
  cbn [map]. rewrite filter_cons, decide_False by (rewrite Hid; congruence).
  exact IH.
Qed.

Lemma filter_deleted_other (id other : string) (table : list Connection) :
  other <> id ->
  filter (fun c => c_id c = other) (filter (fun c => c_id c <> id) table)
  = filter (fun c => c_id c = other) table.
Proof.
  intros Hne. induction table as [|c table IH]; [reflexivity |].
  rewrite (filter_cons (fun c => c_id c <> id)).
  destruct (decide (c_id c <> id)) as [Hc|Hc].
  - rewrite !filter_cons, IH. reflexivity.
  - rewrite IH, filter_cons. rewrite decide_False; [reflexivity |].
    intros Heq. apply Hc. congruence.
Qed.

Lemma merge_updated_record (changes : PartialConnection) (stamp : Z) (old : Connection) :
  updated_record changes stamp old (merge changes stamp old).
Proof.
  unfold updated_record, written, merge. cbn.
  destruct changes as [[n|] [h|] [p|] [d|] [u|] [pw|] [s|]]; cbn; repeat split.
Qed.

(** X6. [updateConnection] with a port that fits its column returns the
    stored record with the fields supplied written over it, the other
    fields, the id and the creation time kept and the update time
    refreshed, and that is what is then read under the id; it returns
    [undefined] and changes no record when the id is unknown (it does
    not fail); what is read under any other id is as before.  A port
    that does not fit is refused and nothing changes. *)
Theorem updateConnection_then_getConnection (R : Remote) (id : string)
    (changes : PartialConnection) (w : World) :
  let after := snd (updateConnection R id changes w) in
  match refused_integer (pc_port changes) with
  | None =>
      (forall old, fst (getConnection id w) = Returned (Some old) ->
         exists new,
           fst (updateConnection R id changes w) = Returned (Some new) /\
           fst (getConnection id after) = Returned (Some new) /\
           updated_record changes (now w) old new) /\
      (fst (getConnection id w) = Returned None ->
         fst (updateConnection R id changes w) = Returned None /\
         fst (getConnection id after) = Returned None /\
         connections after = connections w) /\
      (forall other, other <> id ->
         fst (getConnection other after) = fst (getConnection other w))
  | Some port =>
      updateConnection R id changes w = (Threw (out_of_range R port), w)
  end.
Proof.
  assert (Hid : forall c, c_id (merge changes (now w) c) = c_id c) by reflexivity.
  cbv zeta. rewrite updateConnection_run.
  destruct (refused_integer (pc_port changes)); [reflexivity |].
  unfold getConnection, bind, gets, ret.
  cbn [fst snd connections set_connections].
  rewrite filter_app, deleted_not_selected, (filter_all_same id _ _ Hid). cbn [app].
  split; [| split].
  - intros old Hold. injection Hold as Hold.
    destruct (filter (fun c => c_id c = id) (connections w)) as [|c rest];
      [discriminate |].
    injection Hold as ->. exists (merge changes (now w) old).
    split; [reflexivity |]. split; [reflexivity |]. apply merge_updated_record.
  - intros Hnone. injection Hnone as Hnone.
    destruct (filter (fun c => c_id c = id) (connections w)) as [|c rest] eqn:Hsel;
      [| discriminate].
    split; [reflexivity |]. split; [reflexivity |].
    cbn [map]. rewrite app_nil_r. apply filter_all.
    apply (head_filter_None (fun c => c_id c = id)). now rewrite Hsel.
  - intros other Hne.
    rewrite filter_app, (filter_deleted_other id other _ Hne),
      (filter_other_none id other _ _ Hid Hne).
    now rewrite app_nil_r.
Qed.

(** X7. [deleteConnection] does not fail, whether the id is registered
    or not; afterwards nothing is read under the id and the id has no
    pool, while the records and pools of other ids and the history are as
    before.  No history entry refers to the id (the foreign key of
    [query_history] forbids deleting a record that has history). *)
Theorem deleteConnection_then_getConnection (R : Remote) (id : string) (w : World) :
  Forall (fun h => h_connectionId h <> id) (queryHistory w) ->
  let after := snd (deleteConnection R id w) in
  fst (deleteConnection R id w) = Returned tt /\
  fst (getConnection id after) = Returned None /\
  connectionPools after !! id = None /\
  (forall other, other <> id ->
     fst (getConnection other after) = fst (getConnection other w) /\
     connectionPools after !! other = connectionPools w !! other) /\
  queryHistory after = queryHistory w.
Proof.
  intros Hfree. cbv zeta. rewrite deleteConnection_run, (not_referenced _ _ Hfree).
  cbn [fst snd]. set (after := set_connections _ _).
  split; [reflexivity |].
  split.
  { unfold getConnection, bind, gets, ret. cbn [fst snd].
    change (connections after) with (filter (fun c => c_id c <> id) (connections w)).
    now rewrite deleted_not_selected. }
  split; [apply lookup_delete_eq |].
  split; [| reflexivity].
  intros other Hne. split.
  - unfold getConnection, bind, gets, ret. cbn [fst snd].
    change (connections after) with (filter (fun c => c_id c <> id) (connections w)).
    now rewrite filter_deleted_other.
  - change (connectionPools after) with (delete id (connectionPools w)).
    now apply lookup_delete_ne.
Qed.

Lemma deleteConnection_then_getConnection_witness :
  Forall (fun h => h_connectionId h <> "0") (queryHistory (acquired_world (steady 1))) /\
  fst (getConnection "0" (snd (deleteConnection (steady 1) "0" (acquired_world (steady 1)))))
    = Returned None.
Proof.
  assert (H : Forall (fun h => h_connectionId h <> "0")
                     (queryHistory (acquired_world (steady 1))))
    by (vm_compute; constructor).
  split; [exact H |].
  exact (proj1 (proj2 (deleteConnection_then_getConnection (steady 1) "0" _ H))).
Defined.

(** ** The History Recorder *)

Lemma insert_by_createdAt_last (h : QueryHistory) (sorted : list QueryHistory) :
  Forall (fun x => h_createdAt x <= h_createdAt h) sorted ->
  insert_by_createdAt h sorted = sorted ++ [h].
Proof.
  induction 1 as [|x sorted Hx _ IH]; [reflexivity |].
  cbn [insert_by_createdAt app].
  destruct (Z.ltb_spec (h_createdAt h) (h_createdAt x)); [lia |].
  now rewrite IH.
Qed.

Lemma insert_by_createdAt_Forall (P : QueryHistory -> Prop) (h : QueryHistory)
    (sorted : list QueryHistory) :
  P h -> Forall P sorted -> Forall P (insert_by_createdAt h sorted).
Proof.
  intros Hh. induction 1 as [|x sorted Hx Hs IH]; cbn [insert_by_createdAt].
  - now repeat constructor.
  - destruct (h_createdAt h <? h_createdAt x)%Z; repeat constructor; assumption.
Qed.

Lemma orderBy_createdAt_Forall (P : QueryHistory -> Prop) (table : list QueryHistory) :
  Forall P table -> Forall P (orderBy_createdAt table).
Proof.
  unfold orderBy_createdAt. intros Ht.
  assert (Hacc : Forall P []) by constructor.
  revert Hacc. generalize (@nil QueryHistory).
  induction Ht as [|h table Hh _ IH]; intros acc Hacc; [exact Hacc |].
  cbn [fold_left]. apply IH. now apply insert_by_createdAt_Forall.
Qed.

Lemma insert_by_createdAt_permutation (h : QueryHistory) (sorted : list QueryHistory) :
  insert_by_createdAt h sorted ≡ₚ h :: sorted.
Proof.
  induction sorted as [|x sorted IH]; [reflexivity |].
  cbn [insert_by_createdAt]. destruct (h_createdAt h <? h_createdAt x)%Z; [reflexivity |].
  rewrite IH. apply Permutation_swap.
Qed.

Lemma insert_by_createdAt_sorted (h : QueryHistory) (sorted : list QueryHistory) :
  StronglySorted not_later sorted -> StronglySorted not_later (insert_by_createdAt h sorted).
Proof.
  induction 1 as [|x sorted Hs IH Hx]; cbn [insert_by_createdAt].
  - repeat constructor.
  - destruct (Z.ltb_spec (h_createdAt h) (h_createdAt x)).
    + constructor; [now constructor |].
      constructor; [unfold not_later; lia |].
      eapply Forall_impl; [exact Hx |]. unfold not_later. intros y Hy. simpl in *. lia.
    + constructor; [exact IH |].
      apply insert_by_createdAt_Forall; [unfold not_later; lia | exact Hx].
Qed.

Lemma orderBy_createdAt_sorted (table : list QueryHistory) :
  StronglySorted not_later (orderBy_createdAt table) /\ orderBy_createdAt table ≡ₚ table.
Proof.
  unfold orderBy_createdAt.
  enough (H : forall acc, StronglySorted not_later acc ->
              StronglySorted not_later
                (fold_left (fun sorted h => insert_by_createdAt h sorted) table acc) /\
              fold_left (fun sorted h => insert_by_createdAt h sorted) table acc
                ≡ₚ acc ++ table).
  { apply (H []). constructor. }
  induction table as [|h table IH]; intros acc Hacc.
  - cbn [fold_left]. now rewrite app_nil_r.
  - cbn [fold_left].
    destruct (IH _ (insert_by_createdAt_sorted h acc Hacc)) as [Hs Hp].
    split; [exact Hs |]. rewrite Hp, insert_by_createdAt_permutation.
    apply Permutation_middle.
Qed.

(** X26. [getQueryHistory] changes nothing and lists the entries of the
    connection, each as often as it is stored and none of another
    connection, every entry no later than those listed after it. *)
Theorem getQueryHistory_lists_by_createdAt (connectionId : string) (w : World) :
  exists listed,
    getQueryHistory connectionId w = (Returned listed, w) /\
    StronglySorted not_later listed /\
    listed ≡ₚ filter (fun h => h_connectionId h = connectionId) (queryHistory w) /\
    Forall (fun h => h_connectionId h = connectionId /\ h ∈ queryHistory w) listed.
Proof.
  eexists. split; [reflexivity |].
  destruct (orderBy_createdAt_sorted
              (filter (fun h => h_connectionId h = connectionId) (queryHistory w)))
    as [Hs Hp].
  split; [exact Hs |]. split; [exact Hp |].
  apply Forall_forall. intros h Hin. rewrite Hp in Hin.
  now apply list_elem_of_filter in Hin.
Qed.

(** A row that is newer than the rows of a table is listed after them. *)
Lemma orderBy_createdAt_snoc (h : QueryHistory) (table : list QueryHistory) :
  Forall (fun x => h_createdAt x < h_createdAt h) table ->
  orderBy_createdAt (table ++ [h]) = orderBy_createdAt table ++ [h].
Proof.
  intros Hold. unfold orderBy_createdAt. rewrite fold_left_app. cbn [fold_left].
  apply insert_by_createdAt_last.
  apply (orderBy_createdAt_Forall (fun x => h_createdAt x <= h_createdAt h)).
  eapply Forall_impl; [exact Hold |]. intros x Hx. simpl in Hx. lia.
Qed.

(** X8. An entry whose numbers fit their columns, saved for a stored
    connection at a time later than the entries that connection has, is
    stored as given and is the last entry then listed for the
    connection, after those listed before; the listing of every other
    connection is as before. *)
Theorem saveQueryHistory_then_getQueryHistory (R : Remote) (history : InsertQueryHistory)
    (w : World) :
  in_int4 (ih_executionTime history) = true ->
  in_int4 (ih_rowsAffected history) = true ->
  (exists c, c ∈ connections w /\ c_id c = ih_connectionId history) ->
  Forall (fun h => h_connectionId h = ih_connectionId history -> h_createdAt h < now w)
         (queryHistory w) ->
  exists saved before,
    fst (saveQueryHistory R history w) = Returned saved /\
    (h_connectionId saved = ih_connectionId history /\
     h_query saved = ih_query history /\
     h_executionTime saved = ih_executionTime history /\
     h_rowsAffected saved = ih_rowsAffected history /\
     h_success saved = ih_success history /\
     h_error saved = ih_error history) /\
    fst (getQueryHistory (ih_connectionId history) w) = Returned before /\
    fst (getQueryHistory (ih_connectionId history) (snd (saveQueryHistory R history w)))
      = Returned (before ++ [saved]) /\
    forall other, other <> ih_connectionId history ->
      fst (getQueryHistory other (snd (saveQueryHistory R history w)))
      = fst (getQueryHistory other w).
Proof.
  intros Ht Hr Hc Hnew. rewrite saveQueryHistory_run.
  rewrite accepted_intro by (try assumption; now apply Exists_exists).
  eexists _, _.
  split; [reflexivity |]. split; [repeat split |]. split; [reflexivity |].
  unfold getQueryHistory, gets. cbn [fst snd queryHistory set_queryHistory next_uuid].
  split.
  - rewrite filter_app. rewrite (filter_cons _ _ []).
    cbn [h_connectionId stored]. rewrite decide_True by reflexivity.
    rewrite filter_nil, orderBy_createdAt_snoc; [reflexivity |].
    cbn [h_createdAt stored].
    apply Forall_forall. intros h Hin. apply list_elem_of_filter in Hin as [Hid Hin].
    rewrite Forall_forall in Hnew. exact (Hnew h Hin Hid).
  - intros other Hne. rewrite filter_app. rewrite (filter_cons _ _ []).
    cbn [h_connectionId stored]. rewrite decide_False by congruence.
    now rewrite filter_nil, app_nil_r.
Qed.

Lemma saveQueryHistory_then_getQueryHistory_witness :
  (in_int4 (ih_executionTime (success_entry "0" "SELECT 1" 3 no_rows)) = true /\
   in_int4 (ih_rowsAffected (success_entry "0" "SELECT 1" 3 no_rows)) = true /\
   (exists c, c ∈ connections (registered "s") /\
              c_id c = ih_connectionId (success_entry "0" "SELECT 1" 3 no_rows)) /\
   Forall (fun h => h_connectionId h = ih_connectionId (success_entry "0" "SELECT 1" 3 no_rows) ->
                    h_createdAt h < now (registered "s"))
          (queryHistory (registered "s"))) /\
  exists saved before,
    fst (saveQueryHistory (steady 1) (success_entry "0" "SELECT 1" 3 no_rows) (registered "s"))
      = Returned saved /\
    fst (getQueryHistory "0" (registered "s")) = Returned before /\
    fst (getQueryHistory "0" (snd (saveQueryHistory (steady 1)
                                     (success_entry "0" "SELECT 1" 3 no_rows)
                                     (registered "s"))))
      = Returned (before ++ [saved]).
Proof.
  assert (H : exists c, c ∈ connections (registered "s") /\
                        c_id c = ih_connectionId (success_entry "0" "SELECT 1" 3 no_rows)).
  { eexists. split; [apply list_elem_of_here | reflexivity]. }
  assert (Hnew : Forall (fun h => h_connectionId h
                                  = ih_connectionId (success_entry "0" "SELECT 1" 3 no_rows) ->
                                  h_createdAt h < now (registered "s"))
                        (queryHistory (registered "s"))) by constructor.
  split; [repeat split; assumption |].
  destruct (saveQueryHistory_then_getQueryHistory (steady 1)
              (success_entry "0" "SELECT 1" 3 no_rows) (registered "s")
              eq_refl eq_refl H Hnew)
    as (saved & before & H1 & _ & H2 & H3 & _).
  exists saved, before. auto.
Defined.

(** Entries saved out of the order of their times are listed by time,
    not in the order they were saved. *)
Lemma getQueryHistory_lists_by_time :
  let w := set_queryHistory
             (fun _ => [stored (success_entry "0" "second" 1 no_rows)
                               (submit 0 {| text := "second"; values := [] |} 9
                                       (registered "s"));
                        stored (success_entry "0" "first" 1 no_rows) (registered "s")])
             (registered "s") in
  map h_query (queryHistory w) = ["second"; "first"] /\
  exists listed,
    fst (getQueryHistory "0" w) = Returned listed /\
    map h_query listed = ["first"; "second"].
Proof.
  split; [reflexivity |]. eexists. split; [reflexivity |]. vm_compute. reflexivity.
Qed.

(** X9. [executeQuery] only ever appends to the history: at most one
    entry, for its own connection id and statement; what is listed for
    any other connection is as before, whatever the outcome. *)
Theorem executeQuery_appends_own_entries (R : Remote) (connectionId query : string)
    (w : World) :
  let after := snd (executeQuery R connectionId query w) in
  (exists added,
     queryHistory after = queryHistory w ++ added /\
     (length added <= 1)%nat /\
     Forall (fun h => h_connectionId h = connectionId /\ h_query h = query) added) /\
  forall other, other <> connectionId ->
    fst (getQueryHistory other after) = fst (getQueryHistory other w).
Proof.
  cbn zeta.
  assert (H : exists added,
            queryHistory (snd (executeQuery R connectionId query w)) = queryHistory w ++ added /\
            (length added <= 1)%nat /\
            Forall (fun h => h_connectionId h = connectionId /\ h_query h = query) added).
  { destruct (getConnectionPool R connectionId w) as [[pool|error] w1] eqn:Hacq;
      destruct (getConnectionPool_frame _ _ _ _ _ Hacq) as (_ & Hh & _).
    - destruct (executeQuery_frame R connectionId query _ _ _ Hacq)
        as (_ & _ & _ & [Hq | (entry & Hq & Hid & Htext)]).
      + exists []. rewrite Hq, Hh, app_nil_r.
        split; [reflexivity | split; [simpl; lia | constructor]].
      + exists [entry]. rewrite Hq, Hh.
        split; [reflexivity | split; [simpl; lia | repeat constructor; assumption]].
    - rewrite (executeQuery_no_pool _ _ _ _ _ _ Hacq). exists [].
      cbn [snd]. rewrite Hh, app_nil_r. split; [reflexivity | split; [simpl; lia | constructor]]. }
  split; [exact H |].
  destruct H as (added & Hq & _ & Hown). intros other Hne.
  unfold getQueryHistory, gets. cbn [fst]. rewrite Hq, filter_app.
  rewrite (filter_none (fun h => h_connectionId h = other) added); [now rewrite app_nil_r |].
  eapply Forall_impl; [exact Hown |]. intros h [Hid _]. congruence.
Qed.

(** ** What the reading methods leave alone *)

Lemma getDatabases_query_on (R : Remote) (id : string) :
  getDatabases R id
  = query_on R id {| text := sql_databases; values := [] |}
             (fun result => map (fun row => get row "datname") (pg_rows result)).
Proof. reflexivity. Qed.

Lemma getTables_query_on (R : Remote) (id database : string) :
  getTables R id database
  = query_on R id {| text := sql_tables; values := [] |}
             (fun result =>
                map (fun row =>
                       {| t_name := get row "name";
                          t_schema := get row "schema";
                          t_rowCount := or_zero (parseInt (get row "row_count")) |})
                    (pg_rows result)).
Proof. reflexivity. Qed.

Lemma getTableColumns_query_on (R : Remote) (id database table : string) :
  getTableColumns R id database table
  = query_on R id {| text := sql_columns; values := [VStr table] |}
             (fun result =>
                map (fun row =>
                       {| col_name := get row "name";
                          col_type := get row "type";
                          col_nullable := get row "nullable";
                          col_defaultValue := get row "default_value";
                          col_isPrimaryKey := get row "is_primary_key";
                          col_isUnique := get row "is_unique";
                          col_extra := or_empty (get row "extra") |})
                    (pg_rows result)).
Proof. reflexivity. Qed.

Lemma query_on_same_local_store {A} (R : Remote) (id : string) (s : Statement)
    (k : PgResult -> A) (w : World) :
  same_local_store w (snd (query_on R id s k w)).
Proof. destruct (query_on_world R id s k w) as (_ & _ & Hc & Hq & _). now split. Qed.

(** X10. Listing databases, tables and columns, browsing, exporting,
    acquiring a pool and testing credentials write nothing to the local
    store: the connection records and the whole query history are as
    before, on success and on failure. *)
Theorem reads_leave_local_store (R : Remote) (w : World) :
  (forall id, same_local_store w (snd (getConnectionPool R id w))) /\
  (forall id, same_local_store w (snd (getDatabases R id w))) /\
  (forall id database, same_local_store w (snd (getTables R id database w))) /\
  (forall id database table,
     same_local_store w (snd (getTableColumns R id database table w))) /\
  (forall id database table offset limit filters,
     same_local_store w (snd (getTableData R id database table offset limit filters w))) /\
  (forall id database table format,
     same_local_store w (snd (exportTableData R id database table format w))) /\
  (forall connection, same_local_store w (snd (testConnection R connection w))).
Proof.
  repeat split; intros.
  all: try (destruct (getConnectionPool R id w) as [c w1] eqn:E; cbn [snd];
            now destruct (getConnectionPool_frame _ _ _ _ _ E) as (_ & ? & _ & ? & _)).
  all: try (rewrite ?getDatabases_query_on, ?getTables_query_on, ?getTableColumns_query_on,
              ?getTableData_world, ?exportTableData_world;
            apply query_on_same_local_store).
  all: now destruct (testConnection_local_store R connection w) as (_ & ? & ? & _).
Qed.

(** ** The statements of the Schema Introspector *)

Lemma query_on_issued {A} (R : Remote) (id : string) (s : Statement) (k : PgResult -> A)
    (w w1 : World) (p : nat) (o : Pool) :
  getConnectionPool R id w = (Returned (Some p), w1) ->
  heap w1 !! p = Some o ->
  ended o = false ->
  issued (snd (query_on R id s k w)) = issued w ++ [(p, s)] /\
  fst (query_on R id s k w)
  = match snd (answer R (config o) (now w) (issued w) s) with
    | Returned result => Returned (k result)
    | Threw error => Threw error
    end.
Proof.
  intros Hacq Ho He. rewrite query_on_run, Hacq, (pool_query_open _ _ _ _ _ Ho He).
  destruct (getConnectionPool_frame _ _ _ _ _ Hacq) as (Hi & _ & Hn & _).
  rewrite Hi, Hn.
  destruct (snd (answer R (config o) (now w) (issued w) s)); simpl; now rewrite Hi.
Qed.

(** X11. Each listing of the Schema Introspector sends one statement,
    whose text is fixed: the database name is not used at all and the
    table name travels as the bound value of [$1], never inside the
    text.  So the text sent is the same for every database and table
    name. *)
Theorem introspection_statements_are_fixed (R : Remote) (id database table : string)
    (w w1 : World) (p : nat) (o : Pool) :
  getConnectionPool R id w = (Returned (Some p), w1) ->
  heap w1 !! p = Some o ->
  ended o = false ->
  issued (snd (getDatabases R id w))
    = issued w ++ [(p, {| text := sql_databases; values := [] |})] /\
  issued (snd (getTables R id database w))
    = issued w ++ [(p, {| text := sql_tables; values := [] |})] /\
  issued (snd (getTableColumns R id database table w))
    = issued w ++ [(p, {| text := sql_columns; values := [VStr table] |})].
Proof.
  intros Hacq Ho He.
  rewrite getDatabases_query_on, getTables_query_on, getTableColumns_query_on.
  repeat split; apply (query_on_issued _ _ _ _ _ _ _ _ Hacq Ho He).
Qed.

Lemma introspection_statements_are_fixed_witness :
  getConnectionPool users_only "0" (registered "s")
    = (Returned (Some 0%nat), acquired_world users_only) /\
  issued (snd (getTableColumns users_only "0" "app" "users; DROP TABLE users"
                               (registered "s")))
    = issued (registered "s")
      ++ [(0%nat, {| text := sql_columns; values := [VStr "users; DROP TABLE users"] |})].
Proof.
  assert (H1 : getConnectionPool users_only "0" (registered "s")
               = (Returned (Some 0%nat), acquired_world users_only))
    by (vm_compute; reflexivity).
  split; [exact H1 |].
  exact (proj2 (proj2 (introspection_statements_are_fixed users_only "0" "app"
                         "users; DROP TABLE users" (registered "s")
                         (acquired_world users_only) 0%nat first_pool H1 eq_refl eq_refl))).
Defined.

(** ** The pool of a credential test *)

(** X12. The pool that [testConnection] builds is ended exactly when
    [SELECT 1] completes; when the statement fails the pool is left on
    the heap without [end()] having been called.  At most that one pool
    is built, and when its construction fails none is. *)
Theorem testConnection_pool_lifecycle (R : Remote) (connection : InsertConnection)
    (w : World) :
  let cfg := pool_options_of_insert connection in
  let s := {| text := "SELECT 1"; values := [] |} in
  heap (snd (testConnection R connection w)) =
  match construct R cfg with
  | Some _ => heap w
  | None =>
      heap w ++ [{| config := cfg;
                    ended := match snd (answer R cfg (now w) (issued w) s) with
                             | Returned _ => true
                             | Threw _ => false
                             end |}]
  end.
Proof.
  cbn zeta. rewrite testConnection_run.
  destruct (construct R _); [reflexivity |].
  assert (Hins : <[length (heap w) := {| config := pool_options_of_insert connection;
                                         ended := true |}]>
                   (heap w ++ [{| config := pool_options_of_insert connection;
                                  ended := false |}])
                 = heap w ++ [{| config := pool_options_of_insert connection;
                                 ended := true |}]).
  { rewrite insert_app_r_alt by lia. now rewrite Nat.sub_diag. }
  destruct (snd (answer R _ _ _ _)); [| reflexivity].
  destruct (shutdown R _); exact Hins.
Qed.

(** ** The Data Browser's statement *)

Lemma imap_keys (g : nat -> string -> string) (kept : list (string * option Value)) :
  imap (fun i entry => g i (fst entry)) kept = imap g (map fst kept).
Proof.
  revert g. induction kept as [|entry kept IH]; intros g; [reflexivity |].
  cbn [map]. rewrite !imap_cons. f_equal. apply (IH (fun i => g (S i))).
Qed.

Lemma where_clause_keys (kept : list (string * option Value)) :
  where_clause kept
  = match map fst kept with
    | [] => ""
    | keys =>
        "WHERE " +:+ join " AND "
          (imap (fun i key => key +:+ "::text ILIKE $" +:+ pretty (3 + Z.of_nat i)) keys)
    end.
Proof.
  destruct kept as [|entry kept]; [reflexivity |].
  unfold where_clause. cbn [map]. do 2 f_equal.
  exact (imap_keys (fun i key => key +:+ "::text ILIKE $" +:+ pretty (3 + Z.of_nat i))
                   (entry :: kept)).
Qed.

(** X13. The text of the browse statement is determined by the table
    name and the keys of the surviving filters alone: the filter values,
    the limit and the offset never reach it, they are only bound. *)
Theorem filter_values_stay_out_of_text (table : string) (offset limit offset' limit' : Z)
    (filters filters' : option (list (string * option Value))) :
  map fst (surviving filters) = map fst (surviving filters') ->
  text (table_data_statement table offset limit filters)
  = text (table_data_statement table offset' limit' filters').
Proof.
  intros Hkeys. rewrite !table_data_statement_shape. cbn [text].
  now rewrite !where_clause_keys, Hkeys.
Qed.

Lemma filter_values_stay_out_of_text_witness :
  map fst (surviving (Some [("name", Some (VStr "ann"))]))
  = map fst (surviving (Some [("name", Some (VStr "x' OR 1=1 --")); ("age", None)])) /\
  text (table_data_statement "users" 0 25 (Some [("name", Some (VStr "ann"))]))
  = text (table_data_statement "users" 50 10
            (Some [("name", Some (VStr "x' OR 1=1 --")); ("age", None)])).
Proof.
  split; [reflexivity |].
  exact (filter_values_stay_out_of_text "users" 0 25 50 10
           (Some [("name", Some (VStr "ann"))])
           (Some [("name", Some (VStr "x' OR 1=1 --")); ("age", None)]) eq_refl).
Defined.

(** X14. Placeholders and bound values line up: [$1] and [$2] are the
    limit and the offset, and the condition of the [i]-th surviving
    filter names the placeholder whose number is the position, counted
    from one, of that filter's own pattern among the bound values. *)
Theorem placeholders_match_values (table : string) (offset limit : Z)
    (filters : option (list (string * option Value))) (i : nat)
    (entry : string * option Value) :
  surviving filters !! i = Some entry ->
  let bound := values (table_data_statement table offset limit filters) in
  bound !! 0%nat = Some (VNum limit) /\
  bound !! 1%nat = Some (VNum offset) /\
  length bound = (2 + length (surviving filters))%nat /\
  exists n : nat,
    imap (condition_of 3) (surviving filters) !! i
      = Some (fst entry +:+ "::text ILIKE $" +:+ pretty (Z.of_nat n)) /\
    (1 <= n)%nat /\
    bound !! (n - 1)%nat = Some (pattern_of entry).
Proof.
  intros Hi. rewrite table_data_statement_shape. cbn [values].
  split; [reflexivity |]. split; [reflexivity |].
  split; [cbn [app length]; now rewrite length_map |].
  exists (3 + i)%nat. split; [| split; [lia |]].
  - rewrite list_lookup_imap, Hi. unfold condition_of.
    replace (Z.of_nat (3 + i)) with (3 + Z.of_nat i) by lia. reflexivity.
  - replace (3 + i - 1)%nat with (S (S i)) by lia. cbn [app lookup].
    change ((pattern_of <$> surviving filters) !! i = Some (pattern_of entry)).
    now rewrite list_lookup_fmap, Hi.
Qed.

Lemma placeholders_match_values_witness :
  surviving (Some [("a", Some (VStr "")); ("b", Some (VStr "x"))]) !! 0%nat
    = Some ("b", Some (VStr "x")) /\
  exists n : nat,
    imap (condition_of 3) (surviving (Some [("a", Some (VStr "")); ("b", Some (VStr "x"))]))
      !! 0%nat
      = Some ("b" +:+ "::text ILIKE $" +:+ pretty (Z.of_nat n)) /\
    (1 <= n)%nat /\
    values (table_data_statement "t" 0 25
              (Some [("a", Some (VStr "")); ("b", Some (VStr "x"))])) !! (n - 1)%nat
      = Some (pattern_of ("b", Some (VStr "x"))).
Proof.
  split; [reflexivity |].
  exact (proj2 (proj2 (proj2
           (placeholders_match_values "t" 0 25
              (Some [("a", Some (VStr "")); ("b", Some (VStr "x"))]) 0
              ("b", Some (VStr "x")) eq_refl)))).
Defined.

(** X15. With no filters, an empty filter object, or filters whose
    values are all absent or empty, the statement has no WHERE clause
    and binds the limit and the offset only. *)
Theorem no_surviving_filter_no_where (table : string) (offset limit : Z)
    (filters : option (list (string * option Value))) :
  Forall (fun entry => snd entry = None \/ snd entry = Some (VStr "")) (default [] filters) ->
  table_data_statement table offset limit filters
  = {| text := "SELECT * FROM " +:+ table +:+ "  LIMIT $1 OFFSET $2";
       values := [VNum limit; VNum offset] |}.
Proof.
  intros Hall. rewrite table_data_statement_shape.
  assert (Hnone : surviving filters = []).
  { unfold surviving. induction Hall as [|entry entries Hentry _ IH]; [reflexivity |].
    cbn [List.filter]. unfold filter_present at 1.
    destruct Hentry as [-> | ->]; exact IH. }
  now rewrite Hnone.
Qed.

Lemma no_surviving_filter_no_where_witness :
  Forall (fun entry : string * option Value => snd entry = None \/ snd entry = Some (VStr ""))
         (default [] (Some [("search", Some (VStr "")); ("column", None)])) /\
  table_data_statement "users" 0 25 (Some [("search", Some (VStr "")); ("column", None)])
  = {| text := "SELECT * FROM " +:+ "users" +:+ "  LIMIT $1 OFFSET $2";
       values := [VNum 25; VNum 0] |}.
Proof.
  assert (H : Forall (fun entry : string * option Value =>
                        snd entry = None \/ snd entry = Some (VStr ""))
                     (default [] (Some [("search", Some (VStr "")); ("column", None)]))).
  { constructor; [right; reflexivity |]. constructor; [left; reflexivity | constructor]. }
  split; [exact H |].
  exact (no_surviving_filter_no_where "users" 0 25 _ H).
Defined.

(** ** The CSV writer *)

Lemma append_is_empty (a b : string) : a +:+ b = "" -> a = "" /\ b = "".
Proof. destruct a; [now split | discriminate]. Qed.

Lemma append_char_cancel (a b : string) (c : ascii) :
  a +:+ String c "" = b +:+ String c "" -> a = b.
Proof.
  revert b. induction a as [|x a IH]; intros [|y b] H.
  - reflexivity.
  - rewrite append_empty, append_cons in H. injection H as _ H.
    symmetry in H. now apply append_is_empty in H as [_ ?].
  - rewrite append_empty, append_cons in H. injection H as _ H.
    now apply append_is_empty in H as [_ ?].
  - rewrite !append_cons in H. injection H as -> H. f_equal. now apply IH.
Qed.

Lemma replace_dquotes_inj (s t : string) :
  replace_dquotes s = replace_dquotes t -> s = t.
Proof.
  revert t. induction s as [|c s IH]; intros [|d t]; cbn [replace_dquotes].
  - reflexivity.
  - destruct (Ascii.eqb d DQ); discriminate.
  - destruct (Ascii.eqb c DQ); discriminate.
  - destruct (Ascii.eqb c DQ) eqn:Hc, (Ascii.eqb d DQ) eqn:Hd; intros H.
    + apply Ascii.eqb_eq in Hc, Hd. injection H as H. subst. f_equal. now apply IH.
    + injection H as <- H. now rewrite Ascii.eqb_refl in Hd.
    + injection H as -> H. now rewrite Ascii.eqb_refl in Hc.
    + injection H as -> H. f_equal. now apply IH.
Qed.

(** The field written for a value that is not null is a function of its
    string form. *)
Lemma csv_value_of_string (v : Value) :
  v <> VNull -> csv_value (Some v) = csv_value (Some (VStr (ToString v))).
Proof. destruct v as [| n | s | []]; intros H; [contradiction | reflexivity ..]. Qed.

(** X16. A field of a data line either is free of commas, double quotes
    and newlines, or is wrapped in double quotes with every double quote
    of the value doubled inside. *)
Theorem csv_value_plain_or_quoted (value : option Value) :
  (includes (csv_value value) "," = false /\
   includes (csv_value value) (String DQ "") = false /\
   includes (csv_value value) LF = false) \/
  (exists inner,
     value = Some inner /\
     csv_value value = String DQ (replace_dquotes (ToString inner) +:+ String DQ "")).
Proof.
  destruct value as [v|]; [| left; repeat split; reflexivity].
  destruct (decide (v = VNull)) as [->|Hv]; [left; repeat split; reflexivity |].
  assert (Hcsv : csv_value (Some v) =
                 if includes (ToString v) "," || includes (ToString v) (String DQ "")
                    || includes (ToString v) LF
                 then String DQ (replace_dquotes (ToString v) +:+ String DQ "")
                 else ToString v)
    by (destruct v as [| n | s | []]; [contradiction | reflexivity ..]).
  rewrite Hcsv.
  destruct (includes (ToString v) "," || includes (ToString v) (String DQ "")
            || includes (ToString v) LF) eqn:Hc.
  - right. eauto.
  - left. apply orb_false_iff in Hc as [Hc ?]. apply orb_false_iff in Hc as [? ?]. auto.
Qed.

(** X17. Quoting loses nothing: two values, neither null, that are
    written as the same field have the same string form. *)
Theorem csv_value_keeps_the_string (v v' : Value) :
  v <> VNull -> v' <> VNull ->
  csv_value (Some v) = csv_value (Some v') ->
  ToString v = ToString v'.
Proof.
  intros Hv Hv'. rewrite (csv_value_of_string v Hv), (csv_value_of_string v' Hv').
  generalize (ToString v) (ToString v'). clear. intros s t.
  assert (Hq : forall r, includes (String DQ r) (String DQ "") = true).
  { intros r. cbn [includes]. now rewrite prefix_single, Ascii.eqb_refl. }
  assert (Hform : forall u, csv_value (Some (VStr u)) =
                 if includes u "," || includes u (String DQ "") || includes u LF
                 then String DQ (replace_dquotes u +:+ String DQ "")
                 else u).
  { intros [|c u]; reflexivity. }
  rewrite !Hform.
  destruct (includes s "," || includes s (String DQ "") || includes s LF) eqn:Hs,
           (includes t "," || includes t (String DQ "") || includes t LF) eqn:Ht;
    intros H.
  - injection H as H. apply append_char_cancel in H. now apply replace_dquotes_inj.
  - subst t. rewrite Hq in Ht. now rewrite orb_true_r in Ht.
  - subst s. rewrite Hq in Hs. now rewrite orb_true_r in Hs.
  - exact H.
Qed.

Lemma csv_value_keeps_the_string_witness :
  VNum 7 <> VNull /\ VStr "7" <> VNull /\
  csv_value (Some (VNum 7)) = csv_value (Some (VStr "7")) /\
  ToString (VNum 7) = ToString (VStr "7").
Proof.
  split; [discriminate |]. split; [discriminate |]. split; [reflexivity |].
  exact (csv_value_keeps_the_string (VNum 7) (VStr "7")
           ltac:(discriminate) ltac:(discriminate) eq_refl).
Defined.

(** X18. The CSV export is the empty string only for an empty table: as
    soon as there is a row there is a header line and a line break. *)
Theorem to_csv_empty_iff (rows : list Row) : to_csv rows = "" <-> rows = [].
Proof.
  split; [| now intros ->].
  destruct rows as [|first rest]; [reflexivity |].
  unfold to_csv. cbn [app map]. unfold join.
  change (String.concat LF (?x :: ?y :: ?l)) with (x +:+ LF +:+ String.concat LF (y :: l)).
  intros H. apply append_is_empty in H as [_ H]. discriminate.
Qed.

(** ** The JSON writer *)

Lemma list_ascii_of_append (a b : string) :
  list_ascii_of_string (a +:+ b) = list_ascii_of_string a ++ list_ascii_of_string b.
Proof.
  induction a as [|x a IH]; [reflexivity |].
  rewrite append_cons. cbn [list_ascii_of_string app]. now rewrite IH.
Qed.

Lemma json_escape_printable (c : ascii) :
  forallb (fun x => (32 <=? N_of_ascii x)%N) (list_ascii_of_string (json_escape c)) = true.
Proof. destruct c as [[] [] [] [] [] [] [] []]; vm_compute; reflexivity. Qed.

(** X19. A string written by [QuoteJSONString] holds no control
    character: every character of it, line breaks included, is escaped,
    so the line breaks of a pretty-printed export are all structural. *)
Theorem QuoteJSONString_has_no_control_character (s : string) :
  forallb (fun x => (32 <=? N_of_ascii x)%N) (list_ascii_of_string (QuoteJSONString s)) = true.
Proof.
  unfold QuoteJSONString. cbn [list_ascii_of_string forallb].
  rewrite list_ascii_of_append, forallb_app. cbn [list_ascii_of_string forallb].
  change (32 <=? N_of_ascii DQ)%N with true. cbn [andb]. rewrite andb_true_r.
  induction s as [|c s IH]; [reflexivity |].
  cbn [json_escape_all]. rewrite list_ascii_of_append, forallb_app.
  now rewrite json_escape_printable, IH.
Qed.

(** ** Reading a count *)

Lemma pretty_N_char_digit (d : N) :
  (d < 10)%N -> digit_value 10 (pretty_N_char d) = Some d.
Proof.
  intros Hd.
  assert (d = 0 \/ d = 1 \/ d = 2 \/ d = 3 \/ d = 4 \/ d = 5 \/ d = 6 \/ d = 7
          \/ d = 8 \/ d = 9)%N as H by lia.
  repeat (destruct H as [-> | H]; [reflexivity |]). now subst.
Qed.

(** Reading the digits that [pretty] wrote for [x] in front of [s]. *)
Lemma digits_prefix_pretty (x : N) (s : string) :
  digits_prefix 10 (pretty_N_go x s) None
  = digits_prefix 10 s (if decide (x = 0%N) then None else Some x).
Proof.
  revert s. induction (N.lt_wf_0 x) as [x _ IH]. intros s.
  destruct (decide (x = 0%N)) as [->|Hx]; [now rewrite pretty_N_go_0 |].
  rewrite pretty_N_go_step by lia.
  rewrite IH by (apply N.div_lt; lia).
  cbn [digits_prefix]. rewrite pretty_N_char_digit by (apply N.mod_lt; lia).
  f_equal. f_equal.
  pose proof (N.div_mod x 10 ltac:(lia)) as Hdm.
  destruct (decide (x `div` 10 = 0)%N) as [Hq|Hq]; simpl; lia.
Qed.

(** What [pretty] writes for a positive number starts with a digit, and
    a digit follows it unless the text ends there. *)
Lemma pretty_N_go_head (x : N) (s : string) :
  (0 < x)%N ->
  exists d rest,
    pretty_N_go x s = String (pretty_N_char d) rest /\ (d < 10)%N /\
    (d = 0%N -> False) /\
    (rest = s \/ exists d' rest', rest = String (pretty_N_char d') rest').
Proof.
  revert s. induction (N.lt_wf_0 x) as [x _ IH]. intros s Hx.
  rewrite pretty_N_go_step by lia.
  destruct (decide (x `div` 10 = 0)%N) as [Hq|Hq].
  - rewrite Hq, pretty_N_go_0. exists (x `mod` 10)%N, s.
    split; [reflexivity |]. split; [apply N.mod_lt; lia |].
    split; [| now left].
    pose proof (N.div_mod x 10 ltac:(lia)). lia.
  - assert (Hlt : (x `div` 10 < x)%N) by (apply N.div_lt; lia).
    assert (Hpos : (0 < x `div` 10)%N) by (apply N.neq_0_lt_0; exact Hq).
    destruct (IH _ Hlt (String (pretty_N_char (x `mod` 10)) s) Hpos)
      as (d & rest & Heq & Hd & Hnz & Hrest).
    exists d, rest. split; [exact Heq |]. split; [exact Hd |]. split; [exact Hnz |].
    right. destruct Hrest as [-> | Hrest]; eauto.
Qed.

Lemma parseInt_digits (d : N) (rest : string) :
  (d < 10)%N -> d <> 0%N ->
  parseInt (Some (VStr (String (pretty_N_char d) rest)))
  = match digits_prefix 10 (String (pretty_N_char d) rest) None with
    | Some n => Some (1 * Z.of_N n)
    | None => None
    end /\
  parseInt (Some (VStr (String "-" (String (pretty_N_char d) rest))))
  = match digits_prefix 10 (String (pretty_N_char d) rest) None with
    | Some n => Some (-1 * Z.of_N n)
    | None => None
    end.
Proof.
  intros Hd Hnz.
  assert (d = 1 \/ d = 2 \/ d = 3 \/ d = 4 \/ d = 5 \/ d = 6 \/ d = 7 \/ d = 8 \/ d = 9)%N
    as H by lia.
  repeat (destruct H as [-> | H]; [split; reflexivity |]). subst. split; reflexivity.
Qed.

(** The digits of an integer are read back exactly. *)
Lemma parseInt_pretty (n : Z) : parseInt (Some (VStr (pretty n))) = Some n.
Proof.
  destruct n as [|p|p]; [reflexivity | |].
  - change (pretty (Z.pos p)) with (pretty_N_go (N.pos p) "").
    destruct (pretty_N_go_head (N.pos p) "" ltac:(lia)) as (d & rest & Heq & Hd & Hnz & _).
    rewrite Heq. rewrite (proj1 (parseInt_digits d rest Hd ltac:(auto))).
    rewrite <- Heq, digits_prefix_pretty. reflexivity.
  - change (pretty (Z.neg p)) with (String "-" (pretty_N_go (N.pos p) "")).
    destruct (pretty_N_go_head (N.pos p) "" ltac:(lia)) as (d & rest & Heq & Hd & Hnz & _).
    rewrite Heq. rewrite (proj2 (parseInt_digits d rest Hd ltac:(auto))).
    rewrite <- Heq, digits_prefix_pretty. reflexivity.
Qed.

(** X20. [parseInt] reads back what JavaScript prints for a safe
    integer: a count below 2^53 that the catalog returns as a decimal
    string, or as a number, is the count [getTables] reports. *)
Theorem parseInt_reads_back (n : Z) :
  safe_integer n ->
  parseInt (Some (VStr (ToString (VNum n)))) = Some n /\
  parseInt (Some (VNum n)) = Some n /\
  or_zero (parseInt (Some (VStr (ToString (VNum n))))) = n.
Proof.
  intros _.
  assert (H : parseInt (Some (VStr (ToString (VNum n)))) = Some n)
    by apply parseInt_pretty.
  split; [exact H |]. split; [exact H |]. now rewrite H.
Qed.

Lemma parseInt_reads_back_witness :
  safe_integer 9007199254740991 /\
  parseInt (Some (VStr "9007199254740991")) = Some 9007199254740991.
Proof.
  assert (H : safe_integer 9007199254740991) by (unfold safe_integer; lia).
  split; [exact H |].
  exact (proj1 (parseInt_reads_back 9007199254740991 H)).
Defined.

(** ** The routes *)

Lemma getConnectionPool_unknown (R : Remote) (id : string) (w : World) :
  connectionPools w !! id = None ->
  Forall (fun c => c_id c <> id) (connections w) ->
  getConnectionPool R id w = (Threw (ErrorObj "Connection not found"), w).
Proof.
  intros Hnone Hrec. pose proof (getConnectionPool_acquired R id w) as A.
  assert (Hsel : head (filter (fun c => c_id c = id) (connections w)) = None).
  { apply head_filter_None. eapply Forall_impl; [exact Hrec |]. auto. }
  destruct (getConnectionPool R id w) as [c w1]. cbn [fst snd] in A.
  inversion A; subst; congruence.
Qed.

(** X21. The query route answers 400 [Query is required] unless the
    query of the body is a non-empty string (it may be missing, null, a
    number, a boolean or the empty string), and then nothing happens: no
    pool is acquired, nothing is sent and nothing is recorded. *)
Theorem queryRoute_requires_a_query (R : Remote) (id : string) (query : option Value)
    (w : World) :
  (forall text, query = Some (VStr text) -> text = "") ->
  queryRoute R id query w = (failed 400 "Query is required", w).
Proof.
  intros Hq. unfold queryRoute.
  destruct query as [[| n | text | b]|]; try reflexivity.
  now rewrite (Hq text eq_refl).
Qed.

Lemma queryRoute_requires_a_query_witness :
  (forall text, Some (VNum 5) = Some (VStr text) -> text = "") /\
  queryRoute (steady 1) "0" (Some (VNum 5)) (registered "s")
  = (failed 400 "Query is required", registered "s").
Proof.
  assert (H : forall text, Some (VNum 5) = Some (VStr text) -> text = "")
    by (intros text [=]).
  split; [exact H |].
  exact (queryRoute_requires_a_query (steady 1) "0" (Some (VNum 5)) (registered "s") H).
Defined.

(** X22. When the engine rejects a statement with an error, after a time
    that fits the history's 32-bit column and in a state where every
    kept pool has its record, the query route answers 500 with that
    error's message, the same message that the history entry of the
    statement then holds. *)
Theorem queryRoute_passes_the_engine_message (R : Remote) (id text message : string)
    (w w1 : World) (p : nat) (o : Pool) (elapsed : Z) :
  text <> "" ->
  backed w ->
  getConnectionPool R id w = (Returned (Some p), w1) ->
  heap w1 !! p = Some o ->
  ended o = false ->
  answer R (config o) (now w1) (issued w1) {| text := text; values := [] |}
    = (elapsed, Threw (ErrorObj message)) ->
  in_int4 elapsed = true ->
  fst (queryRoute R id (Some (VStr text)) w) = failed 500 message /\
  exists entry,
    queryHistory (snd (queryRoute R id (Some (VStr text)) w)) = queryHistory w ++ [entry] /\
    h_success entry = false /\
    h_error entry = Some message.
Proof.
  intros Htext Hb Hacq Ho He Hans Hel.
  pose proof (getConnectionPool_referenced _ _ _ _ _ Hb Hacq) as Href.
  set (w2 := submit p {| text := text; values := [] |} elapsed w1).
  assert (Hrun : executeQuery R id text w
                 = (Threw (ErrorObj message),
                    set_queryHistory
                      (fun t => t ++ [stored (failure_entry id text elapsed (ErrorObj message))
                                             w2])
                      (next_uuid w2))).
  { rewrite (executeQuery_run _ _ _ _ _ _ Hacq), (pool_query_open _ _ _ _ _ Ho He), Hans.
    cbn [fst snd]. fold w2.
    replace (now w2 - now w1) with elapsed by (subst w2; simpl; lia).
    unfold caught. rewrite accepted_failure, Hel.
    now rewrite (bool_decide_eq_true_2 _ Href). }
  destruct (getConnectionPool_frame _ _ _ _ _ Hacq) as (_ & Hh & _).
  unfold queryRoute. cbn [as_string].
  replace (truthy (Some (VStr text))) with true by (destruct text; [contradiction | reflexivity]).
  cbn [negb]. rewrite Hrun. cbn [fst snd].
  split; [reflexivity |]. eexists. simpl. rewrite Hh. eauto.
Qed.

Lemma queryRoute_passes_the_engine_message_witness :
  ("nonsense" <> "" /\
   backed (registered "s") /\
   getConnectionPool rejecting "0" (registered "s")
     = (Returned (Some 0%nat), acquired_world rejecting) /\
   in_int4 2 = true) /\
  fst (queryRoute rejecting "0" (Some (VStr "nonsense")) (registered "s"))
    = failed 500 "syntax error at or near nonsense".
Proof.
  assert (H1 : getConnectionPool rejecting "0" (registered "s")
               = (Returned (Some 0%nat), acquired_world rejecting))
    by (vm_compute; reflexivity).
  split;
    [split; [discriminate | split; [apply backed_registered | split; [exact H1 | reflexivity]]] |].
  exact (proj1 (queryRoute_passes_the_engine_message rejecting "0" "nonsense"
                  "syntax error at or near nonsense" (registered "s")
                  (acquired_world rejecting) 0%nat first_pool 2
                  ltac:(discriminate) (backed_registered "s") H1 eq_refl eq_refl eq_refl
                  eq_refl)).
Defined.

(** A statement rejected after a time the history cannot hold: the route
    answers the store's refusal and the history has no entry. *)
Lemma queryRoute_after_a_refused_entry :
  let slow :=
    {| construct := fun _ => None;
       answer := fun _ _ _ _ => (3000000000, Threw (ErrorObj "canceling statement"));
       shutdown := fun _ => None;
       out_of_range := sample_out_of_range;
       violates_reference := sample_violates_reference;
       still_referenced := sample_still_referenced |} in
  let answered := queryRoute slow "0" (Some (VStr "SELECT pg_sleep(3000000)")) (registered "s") in
  fst answered = failed 500 (errorMessage (sample_out_of_range 3000000000)) /\
  queryHistory (snd answered) = [].
Proof. vm_compute. auto. Qed.

(** X23. For a connection id that has neither a pool nor a record, the
    query route answers 500 with [Connection not found] and the listing
    routes answer 500 with their fixed messages; no statement is sent
    and nothing is recorded or changed. *)
Theorem routes_on_unknown_connection (R : Remote) (id database table text : string)
    (w : World) :
  text <> "" ->
  connectionPools w !! id = None ->
  Forall (fun c => c_id c <> id) (connections w) ->
  queryRoute R id (Some (VStr text)) w = (failed 500 "Connection not found", w) /\
  databasesRoute R id w = (failed 500 "Failed to fetch databases", w) /\
  tablesRoute R id database w = (failed 500 "Failed to fetch tables", w) /\
  structureRoute R id database table w = (failed 500 "Failed to fetch table structure", w) /\
  exportRoute R id database table None w = (failed 500 "Failed to export table data", w).
Proof.
  intros Htext Hnone Hrec.
  pose proof (getConnectionPool_unknown R id w Hnone Hrec) as Hacq.
  repeat split.
  - unfold queryRoute. cbn [as_string].
    replace (truthy (Some (VStr text))) with true
      by (destruct text; [contradiction | reflexivity]).
    cbn [negb]. now rewrite (executeQuery_no_pool _ _ _ _ _ _ Hacq).
  - unfold databasesRoute, answer_or_500.
    now rewrite getDatabases_query_on, query_on_run, Hacq.
  - unfold tablesRoute, answer_or_500.
    now rewrite getTables_query_on, query_on_run, Hacq.
  - unfold structureRoute, answer_or_500.
    now rewrite getTableColumns_query_on, query_on_run, Hacq.
  - unfold exportRoute, exportTableData. unfold bind at 1. now rewrite Hacq.
Qed.

Lemma routes_on_unknown_connection_witness :
  "SELECT 1" <> "" /\
  connectionPools (registered "s") !! "missing" = None /\
  Forall (fun c => c_id c <> "missing") (connections (registered "s")) /\
  queryRoute (steady 1) "missing" (Some (VStr "SELECT 1")) (registered "s")
    = (failed 500 "Connection not found", registered "s").
Proof.
  assert (H2 : connectionPools (registered "s") !! "missing" = None) by reflexivity.
  assert (H3 : Forall (fun c => c_id c <> "missing") (connections (registered "s")))
    by (repeat constructor; discriminate).
  split; [discriminate |]. split; [exact H2 |]. split; [exact H3 |].
  exact (proj1 (routes_on_unknown_connection (steady 1) "missing" "app" "t" "SELECT 1"
                  (registered "s") ltac:(discriminate) H2 H3)).
Defined.

Lemma checkInvalidHeaderChar_app (a b : string) :
  checkInvalidHeaderChar (a +:+ b) = checkInvalidHeaderChar a || checkInvalidHeaderChar b.
Proof. unfold checkInvalidHeaderChar. now rewrite list_ascii_of_append, existsb_app. Qed.

(** The header value is refused exactly when the table name or the
    format holds a character that no header value may hold. *)
Lemma disposition_refused (table format : string) :
  checkInvalidHeaderChar
    ("attachment; filename=" +:+ String DQ ((table +:+ "." +:+ format) +:+ String DQ ""))
  = checkInvalidHeaderChar (table +:+ format).
Proof.
  change (String DQ ((table +:+ "." +:+ format) +:+ String DQ ""))
    with (String DQ "" +:+ ((table +:+ "." +:+ format) +:+ String DQ "")).
  rewrite !checkInvalidHeaderChar_app.
  change (checkInvalidHeaderChar "attachment; filename=") with false.
  change (checkInvalidHeaderChar (String DQ "")) with false.
  change (checkInvalidHeaderChar ".") with false.
  cbn [orb]. now rewrite orb_false_r.
Qed.

(** The characters of a header value: a tab, the printable ones and
    those from 128 on; no other control character and no DEL. *)
Lemma header_value_characters :
  map (fun c => checkInvalidHeaderChar (String c ""))
      ["009"; "032"; "126"; "128"; "255"; "000"; "008"; "010"; "013"; "031"; "127"]%char
  = [false; false; false; false; false; true; true; true; true; true; true].
Proof. reflexivity. Qed.

(** X24. The export route and the storage decide the format by the same
    test: the answer is declared [application/json] exactly when the
    body is the JSON serialization, and [text/csv] with the CSV body for
    any other format or none; the file name is the table name, a dot and
    the format.  When the table name or the format holds a character
    that a header value may not hold (a control character other than a
    tab), the export has run but the answer is 500 with the fixed
    message, the content type already set.  When the export fails the
    answer is 500 with the same message and no header. *)
Theorem exportRoute_declares_what_it_sends (R : Remote) (id database table : string)
    (format : option string) (w : World) :
  let given := default "csv" format in
  let json := String.eqb given "json" in
  exportRoute R id database table format w =
  match query_on R id {| text := "SELECT * FROM " +:+ table; values := [] |} pg_rows w with
  | (Returned fetched, w') =>
      if checkInvalidHeaderChar (table +:+ given) then
        ({| status := 500;
            headers := [("Content-Type", if json then "application/json" else "text/csv")];
            sent := JsonError "Failed to export table data" |}, w')
      else
        ({| status := 200;
            headers := [("Content-Type", if json then "application/json" else "text/csv");
                        ("Content-Disposition",
                         "attachment; filename="
                         +:+ String DQ ((table +:+ "." +:+ given) +:+ String DQ ""))];
            sent := Raw (if json then JSON_stringify fetched 2 else to_csv fetched) |}, w')
  | (Threw _, w') => (failed 500 "Failed to export table data", w')
  end.
Proof.
  cbn zeta. unfold exportRoute. rewrite query_on_run.
  destruct (getConnectionPool R id w) as [[pool|error] w1] eqn:Hacq.
  - rewrite (exportTableData_run _ _ _ _ _ _ _ _ Hacq).
    destruct (pool_query R pool _ w1) as [[result|error] w2]; [| reflexivity].
    cbv zeta. rewrite disposition_refused.
    destruct (checkInvalidHeaderChar _); reflexivity.
  - unfold exportTableData. unfold bind at 1. now rewrite Hacq.
Qed.

(** A table name that ends in a line break: the statement is sent and
    the rows come back, but the answer is 500. *)
Lemma exportRoute_refuses_a_line_break :
  let answered := exportRoute one_row "0" "app" ("users" +:+ LF) None (registered "s") in
  status (fst answered) = 500 /\
  sent (fst answered) = JsonError "Failed to export table data" /\
  map (fun s => text (snd s)) (issued (snd answered)) = ["SELECT * FROM users" +:+ LF].
Proof. vm_compute. auto. Qed.

(** X25. The delete route answers [success: true] whether or not the id
    is registered; for an id with neither a record nor a pool the state
    is left exactly as it was.  No history entry refers to the id (see
    X7). *)
Theorem deleteRoute_always_succeeds (R : Remote) (id : string) (w : World) :
  Forall (fun h => h_connectionId h <> id) (queryHistory w) ->
  fst (deleteRoute R id w) = ok true /\
  snd (deleteRoute R id w) = snd (deleteConnection R id w) /\
  (connectionPools w !! id = None ->
   Forall (fun c => c_id c <> id) (connections w) ->
   snd (deleteRoute R id w) = w).
Proof.
  intros Hfree. unfold deleteRoute, answer_or_500, bind, ret.
  rewrite deleteConnection_run, (not_referenced _ _ Hfree). cbn [fst snd].
  split; [reflexivity |]. split; [reflexivity |].
  intros Hnone Hrec. destruct w as [pools objects records entries sent clock seed].
  unfold set_connections, set_connectionPools. cbn in *.
  rewrite (filter_all _ _ Hrec), (delete_id _ _ Hnone). reflexivity.
Qed.

Lemma deleteRoute_always_succeeds_witness :
  Forall (fun h => h_connectionId h <> "missing") (queryHistory (registered "s")) /\
  fst (deleteRoute (steady 1) "missing" (registered "s")) = ok true.
Proof.
  assert (H : Forall (fun h => h_connectionId h <> "missing") (queryHistory (registered "s")))
    by constructor.
  split; [exact H |].
  exact (proj1 (deleteRoute_always_succeeds (steady 1) "missing" (registered "s") H)).
Defined.
